(** * FROST DKG animation: geometry, node boxes and the staged scene

    A shallow embedding of [src/visuals/manim/frost_dkg_animation.py].

    Numbers: the source computes with numpy float64 values.  They are
    modelled by the real numbers of the Standard Library, that is, by exact
    arithmetic; rounding, overflow and underflow are outside this model.
    Points are numpy arrays of shape (3,), as manim's [ORIGIN], [UP],
    [LEFT], ... are. *)

From Stdlib Require Import Reals Lra Psatz List String DecimalString Bool Arith Lia.
Import ListNotations.

Set Warnings "-register-all".

Open Scope R_scope.

(** ** Colours and style constants (source lines 4-12) *)

Inductive color : Type :=
| GREY_A | GREEN_E | BLACK | BLUE_D | GREEN_B | WHITE.

Definition color_eqb (a b : color) : bool :=
  match a, b with
  | GREY_A, GREY_A | GREEN_E, GREEN_E | BLACK, BLACK
  | BLUE_D, BLUE_D | GREEN_B, GREEN_B | WHITE, WHITE => true
  | _, _ => false
  end.

Definition NODE_COLOR_INACTIVE : color := GREY_A.
Definition NODE_COLOR_ACTIVE : color := GREEN_E.
Definition ARROW_COLOR : color := BLACK.
Definition BROADCAST_COLOR : color := BLUE_D.
Definition SHARE_COLOR : color := GREEN_B.
Definition STAGE3_ARROW_COLOR : color := BLUE_D.
Definition TICK_COLOR : color := GREEN_E.
Definition STAGE_LABEL_PAD : R := 0.6.

(** ** Points: numpy arrays of three coordinates *)

Record vec : Type := mkvec { vx : R; vy : R; vz : R }.

Definition vadd (a b : vec) : vec :=
  mkvec (vx a + vx b) (vy a + vy b) (vz a + vz b).
Definition vsub (a b : vec) : vec :=
  mkvec (vx a - vx b) (vy a - vy b) (vz a - vz b).
(** [v * s] and [v / s] with a scalar [s]. *)
Definition vscale (v : vec) (s : R) : vec :=
  mkvec (vx v * s) (vy v * s) (vz v * s).
Definition vdiv (v : vec) (s : R) : vec :=
  mkvec (vx v / s) (vy v / s) (vz v / s).
Definition dot (a b : vec) : R :=
  vx a * vx b + vy a * vy b + vz a * vz b.
(** [np.linalg.norm] of a one-dimensional array: the 2-norm. *)
Definition norm (v : vec) : R := sqrt (dot v v).

Declare Scope vec_scope.
Delimit Scope vec_scope with vec.
Bind Scope vec_scope with vec.
Infix "+" := vadd : vec_scope.
Infix "-" := vsub : vec_scope.
Notation "v *. s" := (vscale v s) (at level 40, left associativity).
Notation "v /. s" := (vdiv v s) (at level 40, left associativity).

Definition ORIGIN : vec := mkvec 0 0 0.
Definition UP : vec := mkvec 0 1 0.
Definition DOWN : vec := mkvec 0 (-1) 0.
Definition LEFT : vec := mkvec (-1) 0 0.
Definition RIGHT : vec := mkvec 1 0 0.

(** ** NodeBox (source lines 15-58)

    A [NodeBox] is a manim [VGroup] of a rounded rectangle and a text.
    Python objects are mutable and compared by identity: a [NodeBox] is
    referred to by a reference [ref] into the heap of the scene.  The model
    keeps the attributes the source reads or writes; [rect_target] and
    [text_target] are the [target] attributes that manim's [.animate] stores on
    the rectangle and the text ([generate_target]). *)

Definition ref : Type := nat.

Record RoundedRectangle : Type := mkRect {
  corner_radius : R;
  width : R;
  height : R;
  fill_color : color;
  fill_opacity : R;
  stroke_color : color
}.

Record Text : Type := mkText {
  text_str : string;
  font_size : R;
  text_color : color
}.

Record NodeBox : Type := mkNodeBox {
  label : string;
  center : vec;
  rect : RoundedRectangle;
  text : Text;
  rect_target : option RoundedRectangle;
  text_target : option Text
}.

(** manim's [VMobject.set_fill(color, opacity)]. *)
Definition set_fill (c : color) (opacity : R) (r : RoundedRectangle)
  : RoundedRectangle :=
  mkRect (corner_radius r) (width r) (height r) c opacity (stroke_color r).

(** manim's [VMobject.set_color(color)]: fill and stroke colour, the
    opacities are kept. *)
Definition set_color (c : color) (r : RoundedRectangle) : RoundedRectangle :=
  mkRect (corner_radius r) (width r) (height r) c (fill_opacity r) c.

Definition text_set_color (c : color) (t : Text) : Text :=
  mkText (text_str t) (font_size t) c.

(** [NodeBox.__init__]: the rectangle is created with
    [color=NODE_COLOR_INACTIVE] and then filled; [Text] has manim's default
    colour, white; both sit at the origin. *)
Definition NodeBox_init (lbl : string) : NodeBox :=
  let rect0 := mkRect 0.2 2.0 1.0 NODE_COLOR_INACTIVE 0 NODE_COLOR_INACTIVE in
  mkNodeBox lbl ORIGIN
            (set_fill NODE_COLOR_INACTIVE 0.4 rect0)
            (mkText lbl 28 WHITE)
            None None.

Definition get_center (self : NodeBox) : vec := center self.

(** [NodeBox.move_to(p)], as used on a fresh box. *)
Definition move_to (p : vec) (self : NodeBox) : NodeBox :=
  mkNodeBox (label self) p (rect self) (text self)
            (rect_target self) (text_target self).

(** Lowest point of the bounding box: the rectangle's bottom edge. *)
Definition get_bottom (self : NodeBox) : vec :=
  (get_center self + DOWN *. (height (rect self) / 2))%vec.

(** [edge_point(self, target, margin=0.1)], lines 49-58. *)
Definition default_margin : R := 0.1.

Definition edge_point (self : NodeBox) (target : vec) (margin : R) : vec :=
  let direction := (target - get_center self)%vec in
  let direction_norm := norm direction in
  if Req_dec_T direction_norm 0 then get_center self
  else
    let unit := direction /. direction_norm in
    let border := Rmax (width (rect self)) (height (rect self)) / 2 in
    (get_center self + unit *. (border + margin))%vec.

(** ** Arrows and labels built by the helper closures of [construct] *)

Record Arrow : Type := mkArrow {
  arrow_start : vec;
  arrow_end : vec;
  buff : R;
  arrow_color : color;
  stroke_width : nat;
  max_tip_length_to_length_ratio : option R
}.

(** [Arrow.get_center()], taken as the middle of the segment from start to
    end.  manim returns the centre of the bounding box of the line and its
    tip, which is this point as long as the tip stays within the box spanned
    by the segment; the labels are placed relative to this point, and nothing
    below depends on where it lies on the arrow. *)
Definition arrow_get_center (a : Arrow) : vec :=
  (arrow_start a + arrow_end a)%vec /. 2.

(** How an object was positioned: manim's [move_to], [to_edge] and [next_to];
    the last two depend on the rendered size of the object and are kept as
    the call that was made.  The target of [next_to] is named by its
    identity. *)
Inductive Placement : Type :=
| AsCreated
| MovedTo (p : vec)
| ToEdge (edge : vec) (buff : R)
| NextTo (target : nat) (direction : vec) (buff : R).

Record Tex : Type := mkTex {
  tex_src : string;
  tex_font_size : R;
  tex_color : color;
  tex_at : Placement
}.

(** Lines 105-112. *)
Definition arrow_between (a b : NodeBox) (c : color) (w : nat) : Arrow :=
  mkArrow (edge_point a (get_center b) default_margin)
          (edge_point b (get_center a) default_margin)
          0 c w None.

(** Python's ["%d" % idx] for a natural number. *)
Definition string_of_nat (n : nat) : string :=
  NilZero.string_of_uint (Nat.to_uint n).

(** Python's [enumerate(l, start=1)]. *)
Definition enumerate1 {A : Type} (l : list A) : list (nat * A) :=
  combine (seq 1 (List.length l)) l.

(** Lines 114-123: one arrow and one label per target, kept in two groups. *)
Definition broadcast_label (idx : nat) (arrow : Arrow) : Tex :=
  mkTex ("$g^{c_{" ++ string_of_nat idx ++ "}}$")%string 26 BROADCAST_COLOR
        (MovedTo (arrow_get_center arrow + UP *. 0.3)%vec).

Definition broadcast_with_labels (from_node : NodeBox) (others : list NodeBox)
  : list Arrow * list Tex :=
  fold_left
    (fun '(arrows, labels) '(idx, target) =>
       let arrow := arrow_between from_node target BROADCAST_COLOR 4 in
       let lbl := broadcast_label idx arrow in
       (arrows ++ [arrow], labels ++ [lbl])%list)
    (enumerate1 others) ([], []).

(** Lines 125-131 (defined by the source, never called). *)
Definition broadcast (from_node : NodeBox) (others : list NodeBox)
  : list Arrow :=
  map (fun target => arrow_between from_node target BROADCAST_COLOR 4) others.

(** Lines 164-168. *)
Definition share_with_label (from_node to_node : NodeBox) : Arrow * Tex :=
  let arrow := arrow_between from_node to_node SHARE_COLOR 6 in
  let lbl := mkTex "$s_{ij}$" 24 SHARE_COLOR
                   (MovedTo (arrow_get_center arrow + UP *. 0.25)%vec) in
  (arrow, lbl).

(** ** Mobjects, animations and the scene

    Every object handed to the scene has an identity ([id]); a [NodeBox] is
    known by its reference.  A [VGroup] lists its submobjects. *)

Inductive Mobject : Type :=
| MNode (r : ref)
| MText (id : nat) (t : Text) (placed : Placement)
| MTex (id : nat) (t : Tex)
| MArrow (id : nat) (a : Arrow)
| MVGroup (id : nat) (subs : list Mobject) (placed : Placement).

(** manim's [get_family]: the object and everything below it. *)
Fixpoint family (m : Mobject) : list nat :=
  match m with
  | MNode r => [r]
  | MText id _ _ => [id]
  | MTex id _ => [id]
  | MArrow id _ => [id]
  | MVGroup id subs _ => id :: flat_map family subs
  end.

(** Animations.  [RectTo], [TextTo] and [MoveTo] are what manim builds from
    [<mobject>.animate.<methods>]: they carry the target the object is
    morphed into ([RectTo r t]: the rectangle of node [r] becomes [t];
    [MoveTo]: the new centre of every node below the moved object). *)
Inductive Animation : Type :=
| FadeIn (m : Mobject) (shift : option vec) (scale : option R)
| FadeOut (m : Mobject)
| Create (m : Mobject) (run_time : option R) (lag_ratio : option R)
| Write (m : Mobject)
| GrowArrow (m : Mobject)
| RectTo (r : ref) (target : RoundedRectangle)
| TextTo (r : ref) (target : Text)
| MoveTo (targets : list (ref * vec))
| AnimationGroup (anims : list Animation).

(** What the scene was asked to render: [self.play(...)] and
    [self.wait(...)]. *)
Inductive Directive : Type :=
| Play (anims : list Animation) (run_time : option R)
| Wait (duration : R).

Record Scene : Type := mkScene {
  next_id : nat;               (* identities handed out so far *)
  heap : ref -> NodeBox;       (* the NodeBox objects *)
  mobjects : list nat;         (* identities of the objects on display *)
  timeline : list Directive    (* directives rendered so far, oldest first *)
}.

Definition empty_scene : Scene :=
  mkScene 0 (fun _ => NodeBox_init "") [] [].

(** Python exceptions the script can raise. *)
Inductive exn : Type := IndexError.

Inductive result (A : Type) : Type :=
| Ok (a : A)
| Raise (e : exn).
Arguments Ok {A} a.
Arguments Raise {A} e.

(** State that survives an exception, as Python's does. *)
Definition M (A : Type) : Type := Scene -> result A * Scene.

Definition ret {A : Type} (a : A) : M A := fun s => (Ok a, s).

Definition bind {A B : Type} (m : M A) (k : A -> M B) : M B :=
  fun s =>
    match m s with
    | (Ok a, s') => k a s'
    | (Raise e, s') => (Raise e, s')
    end.

Definition raise {A : Type} (e : exn) : M A := fun s => (Raise e, s).

Notation "x <- m ;; k" := (bind m (fun x => k))
  (at level 61, m at next level, right associativity).
Notation "m ;; k" := (bind m (fun _ => k))
  (at level 61, right associativity).

Fixpoint mapM {A B : Type} (f : A -> M B) (l : list A) : M (list B) :=
  match l with
  | [] => ret []
  | x :: l' => y <- f x ;; ys <- mapM f l' ;; ret (y :: ys)
  end.

(** A [for] loop over a list. *)
Fixpoint forM_ {A : Type} (l : list A) (body : A -> M unit) : M unit :=
  match l with
  | [] => ret tt
  | x :: l' => body x ;; forM_ l' body
  end.

Definition new_id : M nat :=
  fun s => (Ok (next_id s),
            mkScene (S (next_id s)) (heap s) (mobjects s) (timeline s)).

Definition deref (r : ref) : M NodeBox := fun s => (Ok (heap s r), s).

Definition upd (h : ref -> NodeBox) (r : ref) (n : NodeBox) : ref -> NodeBox :=
  fun r' => if Nat.eqb r' r then n else h r'.

Definition update_node (r : ref) (f : NodeBox -> NodeBox) (s : Scene) : Scene :=
  mkScene (next_id s) (upd (heap s) r (f (heap s r))) (mobjects s) (timeline s).

Definition modify (r : ref) (f : NodeBox -> NodeBox) : M unit :=
  fun s => (Ok tt, update_node r f s).

(** A new [NodeBox] object. *)
Definition new_NodeBox (n : NodeBox) : M ref :=
  r <- new_id ;; modify r (fun _ => n) ;; ret r.

(** [l[i]] on a Python list or a [VGroup]. *)
Definition getitem {A : Type} (l : list A) (i : nat) : M A :=
  match nth_error l i with
  | Some x => ret x
  | None => raise IndexError
  end.

Definition submobjects (m : Mobject) : list Mobject :=
  match m with
  | MVGroup _ subs _ => subs
  | _ => []
  end.

(** ** The transitions of a NodeBox (lines 33-47) *)

Definition with_rect (t : RoundedRectangle) (n : NodeBox) : NodeBox :=
  mkNodeBox (label n) (center n) t (text n) (rect_target n) (text_target n).
Definition with_text (t : Text) (n : NodeBox) : NodeBox :=
  mkNodeBox (label n) (center n) (rect n) t (rect_target n) (text_target n).
Definition with_rect_target (t : RoundedRectangle) (n : NodeBox) : NodeBox :=
  mkNodeBox (label n) (center n) (rect n) (text n) (Some t) (text_target n).
Definition with_text_target (t : Text) (n : NodeBox) : NodeBox :=
  mkNodeBox (label n) (center n) (rect n) (text n) (rect_target n) (Some t).

(** [self.rect.animate.<methods>]: a copy of the rectangle with the methods
    applied is stored as the rectangle's target and the animation towards it
    is returned; the rectangle itself is not touched. *)
Definition rect_animate (self : ref)
           (methods : RoundedRectangle -> RoundedRectangle) : M Animation :=
  n <- deref self ;;
  let target := methods (rect n) in
  modify self (with_rect_target target) ;;
  ret (RectTo self target).

(** [self.text.animate.<methods>]. *)
Definition text_animate (self : ref) (methods : Text -> Text) : M Animation :=
  n <- deref self ;;
  let target := methods (text n) in
  modify self (with_text_target target) ;;
  ret (TextTo self target).

Definition activate (self : ref) : M Animation :=
  a_rect <- rect_animate self
              (fun r => set_color NODE_COLOR_ACTIVE
                          (set_fill NODE_COLOR_ACTIVE 0.8 r)) ;;
  a_text <- text_animate self (text_set_color WHITE) ;;
  ret (AnimationGroup [a_rect; a_text]).

Definition deactivate (self : ref) : M Animation :=
  a_rect <- rect_animate self
              (fun r => set_color NODE_COLOR_INACTIVE
                          (set_fill NODE_COLOR_INACTIVE 0.4 r)) ;;
  a_text <- text_animate self (text_set_color WHITE) ;;
  ret (AnimationGroup [a_rect; a_text]).

(** [edge_point] called on a reference. *)
Definition edge_point_of (self : ref) (target : vec) (margin : R) : M vec :=
  n <- deref self ;; ret (edge_point n target margin).

(** ** Rendering: what [self.play] and [self.wait] do to the scene *)

Definition remove_ids (ids : list nat) (l : list nat) : list nat :=
  filter (fun i => negb (existsb (Nat.eqb i) ids)) l.

(** [Scene.add]: the objects are (re)appended at the end. *)
Definition add_mobjects (ids : list nat) (s : Scene) : Scene :=
  mkScene (next_id s) (heap s) (remove_ids ids (mobjects s) ++ ids)
          (timeline s).

Definition remove_mobjects (ids : list nat) (s : Scene) : Scene :=
  mkScene (next_id s) (heap s) (remove_ids ids (mobjects s)) (timeline s).

(** [Scene.play] adds to the scene every animated object that is not in it
    yet; an object that is in the scene stays in it.  A box stands for its
    rectangle and its text, which the source always animates together.  The
    list records which objects are on display: what is proved below about
    the display after such a play is about membership, not about the
    drawing order. *)
Definition add_missing (ids l : list nat) : list nat :=
  fold_left (fun l' i => if existsb (Nat.eqb i) l' then l' else (l' ++ [i])%list)
            ids l.

Definition show_animated (ids : list nat) (s : Scene) : Scene :=
  mkScene (next_id s) (heap s) (add_missing ids (mobjects s)) (timeline s).

(** The state of the scene once an animation has finished. *)
Fixpoint commit (a : Animation) (s : Scene) : Scene :=
  match a with
  | FadeIn m _ _ => add_mobjects (family m) s
  | Create m _ _ => add_mobjects (family m) s
  | Write m => add_mobjects (family m) s
  | GrowArrow m => add_mobjects (family m) s
  | FadeOut m => remove_mobjects (family m) s
  | RectTo r t => update_node r (with_rect t) (show_animated [r] s)
  | TextTo r t => update_node r (with_text t) (show_animated [r] s)
  | MoveTo targets =>
      fold_left (fun s' '(r, p) => update_node r (move_to p) s') targets
                (show_animated (map fst targets) s)
  | AnimationGroup anims =>
      (fix commit_group (l : list Animation) (s' : Scene) : Scene :=
         match l with
         | [] => s'
         | a' :: l' => commit_group l' (commit a' s')
         end) anims s
  end.

Definition commit_all (anims : list Animation) (s : Scene) : Scene :=
  fold_left (fun s' a => commit a s') anims s.

Definition render (d : Directive) (s : Scene) : Scene :=
  match d with
  | Play anims _ => commit_all anims s
  | Wait _ => s
  end.

Definition log (d : Directive) (s : Scene) : Scene :=
  mkScene (next_id s) (heap s) (mobjects s) (timeline s ++ [d]).

Definition play (anims : list Animation) (run_time : option R) : M unit :=
  fun s => (Ok tt, log (Play anims run_time) (render (Play anims run_time) s)).

Definition wait (duration : R) : M unit :=
  fun s => (Ok tt, log (Wait duration) s).

(** ** [FrostDKGScene.construct] (lines 64-274) *)

(** Centre of the bounding box of a group of node boxes ([VGroup.get_center]);
    a box reaches half its rectangle's width and height around its centre. *)
Definition span (lo hi : NodeBox -> R) (ns : list NodeBox) : R :=
  match ns with
  | [] => 0
  | n :: ns' =>
      (fold_left Rmin (map lo ns') (lo n) + fold_left Rmax (map hi ns') (hi n)) / 2
  end.

Definition group_center (ns : list NodeBox) : vec :=
  mkvec
    (span (fun n => vx (center n) - width (rect n) / 2)
          (fun n => vx (center n) + width (rect n) / 2) ns)
    (span (fun n => vy (center n) - height (rect n) / 2)
          (fun n => vy (center n) + height (rect n) / 2) ns)
    (span (fun n => vz (center n)) (fun n => vz (center n)) ns).

(** [nodes_group.animate.move_to(p)]: every member is shifted by the
    vector that brings the centre of the group to [p]. *)
Definition group_animate_move_to (members : list ref) (p : vec) : M Animation :=
  ns <- mapM deref members ;;
  let shift := (p - group_center ns)%vec in
  ret (MoveTo (combine members (map (fun n => (center n + shift)%vec) ns))).

(** [<node>.animate.move_to(p)]. *)
Definition node_animate_move_to (self : ref) (p : vec) : Animation :=
  MoveTo [(self, p)].

(** A fresh [VGroup] of fresh objects. *)
Definition new_group {X : Type} (wrap : nat -> X -> Mobject) (xs : list X)
  : M Mobject :=
  subs <- mapM (fun x => i <- new_id ;; ret (wrap i x)) xs ;;
  g <- new_id ;;
  ret (MVGroup g subs AsCreated).

(** Lines 66-83: the three boxes, their fade-in and the centring. *)
Definition p1_pos : vec := (LEFT *. 3 + UP *. 0.5)%vec.
Definition p2_pos : vec := (RIGHT *. 3 + UP *. 0.5)%vec.
Definition p3_pos : vec := DOWN *. 2.

Definition create_nodes : M (ref * ref * ref) :=
  p1 <- new_NodeBox (move_to p1_pos (NodeBox_init "P1")) ;;
  p2 <- new_NodeBox (move_to p2_pos (NodeBox_init "P2")) ;;
  p3 <- new_NodeBox (move_to p3_pos (NodeBox_init "P3")) ;;
  ret (p1, p2, p3).

Definition setup : M (ref * ref * ref) :=
  ps <- create_nodes ;;
  let '(p1, p2, p3) := ps in
  let nodes := [p1; p2; p3] in
  play (map (fun node => FadeIn (MNode node) (Some DOWN) (Some 0.8)) nodes)
       None ;;
  g <- new_id ;;
  let nodes_group := MVGroup g (map MNode nodes) AsCreated in
  a <- group_animate_move_to nodes ORIGIN ;;
  play [a] None ;;
  wait 0.5 ;;
  ret (p1, p2, p3).

(** Lines 86-91. *)
Definition brief (txt : string) : M unit :=
  i <- new_id ;;
  let info := MText i (mkText txt 28 WHITE) (ToEdge DOWN 0.6) in
  play [Write info] None ;;
  wait 2 ;;
  play [FadeOut info] None.

(** A stage title: lines 95-99, 156-160, 199-202. *)
Definition stage_label (title : string) : M Mobject :=
  i <- new_id ;;
  ret (MText i (mkText title 38 WHITE) (ToEdge UP STAGE_LABEL_PAD)).

(** The turns of stages 1 and 2 (lines 134 and 175). *)
Definition turns (p1 p2 p3 : ref) : list (ref * list ref) :=
  [(p1, [p2; p3]); (p2, [p1; p3]); (p3, [p1; p2])].

(** Lines 136-138 and 176-178. *)
Definition spotlight (nodes : list ref) (active : ref) : M unit :=
  a <- activate active ;;
  ds <- mapM deactivate (filter (fun n => negb (Nat.eqb n active)) nodes) ;;
  play (a :: ds) None.

(** Body of the loop of stage 1, lines 135-149. *)
Definition stage1_turn (nodes : list ref) (turn : ref * list ref) : M unit :=
  let '(active, others) := turn in
  spotlight nodes active ;;
  i <- new_id ;;
  let poly := MTex i (mkTex "$f(x)=a_0+a_1x$" 26 WHITE (NextTo active UP 0.4)) in
  play [FadeIn poly None None] None ;;
  from_node <- deref active ;;
  targets <- mapM deref others ;;
  let '(arrows, labels) := broadcast_with_labels from_node targets in
  arrows <- new_group MArrow arrows ;;
  labels <- new_group MTex labels ;;
  play [Create arrows (Some 0.8) None] None ;;
  play [FadeIn labels None None] None ;;
  wait 0.3 ;;
  play [FadeOut arrows; FadeOut labels; FadeOut poly] None.

Definition stage1_loop (nodes : list ref) (script : list (ref * list ref))
  : M unit :=
  forM_ script (stage1_turn nodes).

Definition stage1 (nodes : list ref) (p1 p2 p3 : ref) : M unit :=
  stage1_label <- stage_label "Stage 1 – Commitments" ;;
  play [FadeIn stage1_label (Some DOWN) None] None ;;
  wait 0.3 ;;
  brief "Each node chooses a secret curve & broadcasts commitments" ;;
  stage1_loop nodes (turns p1 p2 p3) ;;
  wait 1 ;;
  play [FadeOut stage1_label] None.

(** Lines 170-173. *)
Definition tick_at (target : nat) : Text * Placement :=
  (mkText "✓" 36 TICK_COLOR, NextTo target RIGHT 0.1).

(** Body of the loop of stage 2, lines 176-192. *)
Definition stage2_turn (nodes : list ref) (turn : ref * list ref) : M unit :=
  let '(active, peers) := turn in
  spotlight nodes active ;;
  from_node <- deref active ;;
  shares <- mapM (fun peer => to_node <- deref peer ;;
                              ret (share_with_label from_node to_node)) peers ;;
  arrows <- new_group MArrow (map fst shares) ;;
  labels <- new_group MTex (map snd shares) ;;
  arrow0 <- getitem (submobjects arrows) 0 ;;
  arrow1 <- getitem (submobjects arrows) 1 ;;
  play [GrowArrow arrow0; GrowArrow arrow1] (Some 1.0) ;;
  play [FadeIn labels None None] None ;;
  ticks <- new_group (fun i '(t, placed) => MText i t placed)
                     (map tick_at peers) ;;
  play [FadeIn ticks None (Some 0.3)] None ;;
  wait 0.5 ;;
  play [FadeOut arrows; FadeOut labels; FadeOut ticks] None.

Definition stage2_loop (nodes : list ref) (script : list (ref * list ref))
  : M unit :=
  forM_ script (stage2_turn nodes).

Definition stage2 (nodes : list ref) (p1 p2 p3 : ref) : M unit :=
  stage2_label <- stage_label "Stage 2 – Share distribution" ;;
  play [FadeIn stage2_label (Some DOWN) None] None ;;
  wait 0.3 ;;
  brief "Nodes exchange secret shares and verify them" ;;
  stage2_loop nodes (turns p1 p2 p3) ;;
  wait 1 ;;
  play [FadeOut stage2_label] None.

(** [get_top()] of an object that was placed by [next_to(n, DOWN, buff)]:
    [next_to] brings the middle of the object's top edge to the middle of
    [n]'s bottom edge, moved down by [buff]. *)
Definition top_when_below (n : NodeBox) (buff : R) : vec :=
  (get_bottom n + DOWN *. buff)%vec.

(** Lines 199-274. *)
Definition top_y : R := 1.3.

Definition stage3 (p1 p2 p3 : ref) : M unit :=
  stage3_label <- stage_label "Stage 3 – Combine keys" ;;
  play [FadeIn stage3_label (Some DOWN) None] None ;;
  wait 0.5 ;;
  brief "Commitments ➜ group public key & Shares ➜ group private key" ;;
  play [node_animate_move_to p1 (LEFT *. 4 + UP *. top_y)%vec;
        node_animate_move_to p2 (RIGHT *. 4 + UP *. top_y)%vec;
        node_animate_move_to p3 (UP *. top_y)] None ;;
  (* centred key labels and equations *)
  i_combine <- new_id ;;
  let combine_text := MText i_combine (mkText "Group public key" 24 WHITE) AsCreated in
  i_pub_eq <- new_id ;;
  let pub_eq :=
    MTex i_pub_eq
         (mkTex "$P_{\text{group}} = g^{a_0^{(1)} + a_0^{(2)} + a_0^{(3)}}$"
                24 WHITE (NextTo i_combine RIGHT 0.2)) in
  i_pub <- new_id ;;
  let pub_group := MVGroup i_pub [combine_text; pub_eq] (NextTo p3 DOWN 3.0) in
  i_secret <- new_id ;;
  let secret_text := MText i_secret (mkText "Group private key" 24 WHITE) AsCreated in
  i_priv_eq <- new_id ;;
  let priv_eq :=
    MTex i_priv_eq
         (mkTex "$s_{\text{group}} = s_{0}+s_{1}+s_{2}$" 24 WHITE
                (NextTo i_secret RIGHT 0.2)) in
  i_sec <- new_id ;;
  let secret_group :=
    MVGroup i_sec [secret_text; priv_eq] (NextTo i_pub DOWN 0.4) in
  (* downward arrows into the text *)
  n1 <- deref p1 ;;
  n2 <- deref p2 ;;
  n3 <- deref p3 ;;
  let pub_group_top := top_when_below n3 3.0 in
  i_arrow1 <- new_id ;;
  let arrow1 := mkArrow (get_bottom n1) pub_group_top 0 STAGE3_ARROW_COLOR 6
                        (Some 0.1) in
  i_arrow2 <- new_id ;;
  let arrow2 := mkArrow (get_bottom n2) pub_group_top 0 STAGE3_ARROW_COLOR 6
                        (Some 0.1) in
  i_arrow3 <- new_id ;;
  let arrow3 := mkArrow (get_bottom n3) pub_group_top 0 STAGE3_ARROW_COLOR 6
                        (Some 0.1) in
  (* the secret pieces *)
  i_s0 <- new_id ;;
  let s0 := MTex i_s0 (mkTex "$s_{0}$" 24 STAGE3_ARROW_COLOR
                             (NextTo i_arrow1 LEFT 0.01)) in
  i_s1 <- new_id ;;
  let s1 := MTex i_s1 (mkTex "$s_{1}$" 24 STAGE3_ARROW_COLOR
                             (NextTo i_arrow2 RIGHT 0.01)) in
  i_s2 <- new_id ;;
  let s2 := MTex i_s2 (mkTex "$s_{2}$" 24 STAGE3_ARROW_COLOR
                             (NextTo i_arrow3 RIGHT 0.01)) in
  i_down <- new_id ;;
  let down_arrows :=
    MVGroup i_down [MArrow i_arrow1 arrow1; MArrow i_arrow2 arrow2;
                    MArrow i_arrow3 arrow3] AsCreated in
  i_labels <- new_id ;;
  let share_labels := MVGroup i_labels [s0; s1; s2] AsCreated in
  play [Create down_arrows None (Some 0.2)] None ;;
  play [FadeIn share_labels None None] None ;;
  play [FadeIn pub_group None None] None ;;
  play [FadeIn secret_group None None] None ;;
  wait 2 ;;
  brief "Threshold signing possible – any 2 of 3 shares can sign".

Definition construct : M unit :=
  ps <- setup ;;
  let '(p1, p2, p3) := ps in
  let nodes := [p1; p2; p3] in
  stage1 nodes p1 p2 p3 ;;
  stage2 nodes p1 p2 p3 ;;
  stage3 p1 p2 p3.

(** ** Observing a run *)

(** The scene after a computation, and what the computation rendered. *)
Definition exec {A : Type} (m : M A) (s : Scene) : Scene := snd (m s).

Definition emitted {A : Type} (m : M A) (s : Scene) : list Directive :=
  skipn (List.length (timeline s)) (timeline (exec m s)).

Definition succeeds {A : Type} (m : M A) (s : Scene) : bool :=
  match fst (m s) with
  | Ok _ => true
  | Raise _ => false
  end.

(** * Properties *)

(** ** Geometry *)

Section Geometry.

Lemma dot_self_nonneg (v : vec) : 0 <= dot v v.
Proof. unfold dot. nra. Qed.

Lemma norm_nonneg (v : vec) : 0 <= norm v.
Proof. apply sqrt_pos. Qed.

Lemma norm_sqr (v : vec) : norm v * norm v = dot v v.
Proof. apply sqrt_sqrt, dot_self_nonneg. Qed.

Lemma vec_eq (a b : vec) : vx a = vx b -> vy a = vy b -> vz a = vz b -> a = b.
Proof. destruct a, b; simpl; intros; subst; reflexivity. Qed.

Lemma norm_zero_inv (a b : vec) : norm (a - b) = 0 -> a = b.
Proof.
  intros H. apply sqrt_eq_0 in H; [| apply dot_self_nonneg].
  unfold dot in H. simpl in H.
  pose proof (Rle_0_sqr (vx a - vx b)) as Px.
  pose proof (Rle_0_sqr (vy a - vy b)) as Py.
  pose proof (Rle_0_sqr (vz a - vz b)) as Pz.
  unfold Rsqr in Px, Py, Pz.
  assert (Hx : (vx a - vx b) * (vx a - vx b) = 0) by lra.
  assert (Hy : (vy a - vy b) * (vy a - vy b) = 0) by lra.
  assert (Hz : (vz a - vz b) * (vz a - vz b) = 0) by lra.
  apply Rsqr_0_uniq in Hx, Hy, Hz.
  apply vec_eq; lra.
Qed.

Lemma norm_same (a : vec) : norm (a - a) = 0.
Proof.
  unfold norm, dot; simpl.
  replace ((vx a - vx a) * (vx a - vx a) + (vy a - vy a) * (vy a - vy a)
           + (vz a - vz a) * (vz a - vz a)) with 0 by ring.
  apply sqrt_0.
Qed.

Lemma norm_scale (v : vec) (k : R) : 0 <= k -> norm (v *. k) = norm v * k.
Proof.
  intros Hk. unfold norm.
  replace (dot (v *. k) (v *. k)) with (dot v v * (k * k))
    by (unfold dot; simpl; ring).
  rewrite sqrt_mult; [| apply dot_self_nonneg | nra].
  rewrite sqrt_square by assumption. reflexivity.
Qed.

Lemma norm_unit (v : vec) : norm v <> 0 -> norm (v /. norm v) = 1.
Proof.
  intros H.
  replace (v /. norm v) with (v *. (/ norm v))
    by (unfold vdiv, vscale, Rdiv; reflexivity).
  pose proof (norm_nonneg v) as Hn.
  rewrite norm_scale by (left; apply Rinv_0_lt_compat; lra).
  field. assumption.
Qed.

Lemma norm_along_x (x : R) : 0 <= x -> norm (mkvec x 0 0) = x.
Proof.
  intros H. unfold norm, dot; simpl.
  replace (x * x + 0 * 0 + 0 * 0) with (x * x) by ring.
  apply sqrt_square, H.
Qed.

Lemma norm_along_y (y : R) : 0 <= y -> norm (mkvec 0 y 0) = y.
Proof.
  intros H. unfold norm, dot; simpl.
  replace (0 * 0 + y * y + 0 * 0) with (y * y) by ring.
  apply sqrt_square, H.
Qed.

Lemma Rmax_half (w h : R) : Rmax w h / 2 = Rmax (w / 2) (h / 2).
Proof.
  unfold Rmax.
  destruct (Rle_dec w h), (Rle_dec (w / 2) (h / 2)); lra.
Qed.

(** The two branches of [edge_point]. *)
Lemma edge_point_center (e : NodeBox) (m : R) :
  edge_point e (get_center e) m = get_center e.
Proof.
  unfold edge_point; cbv zeta.
  destruct (Req_dec_T (norm (get_center e - get_center e)) 0) as [_ | H].
  - reflexivity.
  - exfalso. apply H, norm_same.
Qed.

Lemma edge_point_away (e : NodeBox) (towards : vec) (m : R) :
  towards <> get_center e ->
  edge_point e towards m =
  (get_center e
   + (towards - get_center e) /. norm (towards - get_center e)
     *. (Rmax (width (rect e)) (height (rect e)) / 2 + m))%vec.
Proof.
  intros Hne. unfold edge_point; cbv zeta.
  destruct (Req_dec_T (norm (towards - get_center e)) 0) as [H | _].
  - exfalso. apply Hne, norm_zero_inv, H.
  - reflexivity.
Qed.

Lemma offset_from_center (c u : vec) : ((c + u) - c)%vec = u.
Proof. apply vec_eq; simpl; ring. Qed.

Lemma edge_point_distance (e : NodeBox) (towards : vec) (m : R) :
  towards <> get_center e ->
  0 <= Rmax (width (rect e)) (height (rect e)) / 2 + m ->
  norm (edge_point e towards m - get_center e) =
  Rmax (width (rect e)) (height (rect e)) / 2 + m.
Proof.
  intros Hne Hpos.
  rewrite edge_point_away by assumption.
  rewrite offset_from_center, norm_scale by assumption.
  rewrite norm_unit; [ring |].
  intros H. apply Hne, norm_zero_inv, H.
Qed.

Lemma edge_point_ray (e : NodeBox) (towards : vec) (m : R) :
  towards <> get_center e ->
  0 <= Rmax (width (rect e)) (height (rect e)) / 2 + m ->
  exists t : R,
    0 <= t /\
    edge_point e towards m =
    (get_center e + (towards - get_center e) *. t)%vec.
Proof.
  intros Hne Hpos.
  assert (Hn : norm (towards - get_center e) <> 0)
    by (intros H; apply Hne, norm_zero_inv, H).
  pose proof (norm_nonneg (towards - get_center e)) as Hge.
  exists ((Rmax (width (rect e)) (height (rect e)) / 2 + m)
          / norm (towards - get_center e)).
  split.
  - apply Rmult_le_pos; [assumption |].
    left; apply Rinv_0_lt_compat; lra.
  - rewrite edge_point_away by assumption.
    apply vec_eq; simpl; field; assumption.
Qed.

End Geometry.

Definition box_at (lbl : string) (p : vec) : NodeBox :=
  move_to p (NodeBox_init lbl).

Lemma vsub_origin (v : vec) : (v - ORIGIN)%vec = v.
Proof. apply vec_eq; simpl; ring. Qed.

Lemma box_half_extent (lbl : string) (p : vec) :
  Rmax (width (rect (box_at lbl p))) (height (rect (box_at lbl p))) / 2 = 1.
Proof. simpl. rewrite Rmax_left by lra. lra. Qed.

Lemma box_center (lbl : string) (p : vec) : get_center (box_at lbl p) = p.
Proof. reflexivity. Qed.

(** C3 (amended).  For every node box [e], point [towards] and margin [m]
    with [half + m >= 0], where [half] is the larger of the half-width and the
    half-height of the rectangle: when [towards] differs from the centre,
    [edge_point e towards m] lies on the ray from the centre towards
    [towards], at Euclidean distance [half + m] from the centre; when
    [towards] is the centre, the centre is returned.  [edge_point] is a
    total function: no case raises. *)
Theorem edge_point_spec (e : NodeBox) (towards : vec) (m : R) :
  0 <= Rmax (width (rect e) / 2) (height (rect e) / 2) + m ->
  (towards <> get_center e ->
   norm (edge_point e towards m - get_center e)
   = Rmax (width (rect e) / 2) (height (rect e) / 2) + m
   /\ exists t : R,
       0 <= t /\
       edge_point e towards m
       = (get_center e + (towards - get_center e) *. t)%vec)
  /\ (towards = get_center e -> edge_point e towards m = get_center e).
Proof.
  rewrite <- Rmax_half. intros Hpos. split.
  - intros Hne. split.
    + apply edge_point_distance; assumption.
    + apply edge_point_ray; assumption.
  - intros ->. apply edge_point_center.
Qed.

Lemma RIGHT_not_origin : RIGHT <> ORIGIN.
Proof. intros H. apply (f_equal vx) in H. simpl in H. lra. Qed.

Lemma edge_point_spec_witness :
  norm (edge_point (box_at "P1" ORIGIN) RIGHT default_margin
        - get_center (box_at "P1" ORIGIN))
  = Rmax (width (rect (box_at "P1" ORIGIN)) / 2)
         (height (rect (box_at "P1" ORIGIN)) / 2) + default_margin.
Proof.
  refine (proj1 (proj1 (edge_point_spec (box_at "P1" ORIGIN) RIGHT
                                        default_margin _)
                       RIGHT_not_origin)).
  simpl. unfold default_margin. rewrite Rmax_left by lra. lra.
Defined.

(** C3 as stated fails for a margin below minus the half-extent: the box
    "P1" at the origin has half-extent 1; with margin -3 the point returned
    towards [RIGHT] is (-2, 0, 0), at distance 2 (not 1 + (-3) = -2) from the
    centre and on the opposite ray. *)
Lemma edge_point_negative_margin :
  RIGHT <> get_center (box_at "P1" ORIGIN)
  /\ edge_point (box_at "P1" ORIGIN) RIGHT (-3) = mkvec (-2) 0 0
  /\ norm (edge_point (box_at "P1" ORIGIN) RIGHT (-3)
           - get_center (box_at "P1" ORIGIN))
     <> Rmax (width (rect (box_at "P1" ORIGIN)) / 2)
             (height (rect (box_at "P1" ORIGIN)) / 2) + (-3)
  /\ ~ (exists t : R,
          0 <= t /\
          edge_point (box_at "P1" ORIGIN) RIGHT (-3)
          = (get_center (box_at "P1" ORIGIN)
             + (RIGHT - get_center (box_at "P1" ORIGIN)) *. t)%vec).
Proof.
  assert (E : edge_point (box_at "P1" ORIGIN) RIGHT (-3) = mkvec (-2) 0 0).
  { rewrite edge_point_away by apply RIGHT_not_origin.
    rewrite box_half_extent, box_center, vsub_origin.
    unfold RIGHT at 2. rewrite norm_along_x by lra.
    apply vec_eq; simpl; field. }
  split; [apply RIGHT_not_origin |]. split; [exact E |]. split.
  - rewrite <- Rmax_half, box_half_extent.
    pose proof (norm_nonneg (edge_point (box_at "P1" ORIGIN) RIGHT (-3)
                             - get_center (box_at "P1" ORIGIN))).
    lra.
  - intros [t [Ht Heq]]. rewrite E, box_center in Heq.
    apply (f_equal vx) in Heq. simpl in Heq. lra.
Qed.

(** ** Connectors *)

Lemma half_extent_margin_nonneg (e : NodeBox) :
  0 <= width (rect e) ->
  0 <= Rmax (width (rect e)) (height (rect e)) / 2 + default_margin.
Proof.
  intros H. pose proof (Rmax_l (width (rect e)) (height (rect e))).
  unfold default_margin. lra.
Qed.

(** C2 (amended).  For every pair of node boxes [a], [b] with different
    centres (and rectangles of non-negative width), the arrow built by
    [arrow_between a b] has zero [buff], starts at
    [edge_point a b.center 0.1] and ends at [edge_point b a.center 0.1]:
    each end lies on the ray from its own box's centre towards the other
    box, at distance half-extent + 0.1 from that centre, the default margin
    of [edge_point]. *)
Theorem arrow_between_endpoints (a b : NodeBox) (c : color) (w : nat) :
  get_center a <> get_center b ->
  0 <= width (rect a) ->
  0 <= width (rect b) ->
  arrow_start (arrow_between a b c w)
  = edge_point a (get_center b) default_margin
  /\ arrow_end (arrow_between a b c w)
     = edge_point b (get_center a) default_margin
  /\ buff (arrow_between a b c w) = 0
  /\ norm (arrow_start (arrow_between a b c w) - get_center a)
     = Rmax (width (rect a)) (height (rect a)) / 2 + default_margin
  /\ norm (arrow_end (arrow_between a b c w) - get_center b)
     = Rmax (width (rect b)) (height (rect b)) / 2 + default_margin
  /\ (exists t : R,
         0 <= t /\
         arrow_start (arrow_between a b c w)
         = (get_center a + (get_center b - get_center a) *. t)%vec)
  /\ (exists t : R,
         0 <= t /\
         arrow_end (arrow_between a b c w)
         = (get_center b + (get_center a - get_center b) *. t)%vec).
Proof.
  intros Hne Ha Hb.
  assert (Hne' : get_center b <> get_center a) by (intros E; apply Hne; auto).
  pose proof (half_extent_margin_nonneg a Ha) as Pa.
  pose proof (half_extent_margin_nonneg b Hb) as Pb.
  simpl. repeat split.
  - apply edge_point_distance; assumption.
  - apply edge_point_distance; assumption.
  - apply edge_point_ray; assumption.
  - apply edge_point_ray; assumption.
Qed.

Definition far_right : vec := mkvec 5 0 0.

Lemma far_right_not_origin : far_right <> ORIGIN.
Proof. intros H. apply (f_equal vx) in H. simpl in H. lra. Qed.

Lemma arrow_between_endpoints_witness :
  norm (arrow_start (arrow_between (box_at "P1" ORIGIN) (box_at "P2" far_right)
                                   BROADCAST_COLOR 4)
        - get_center (box_at "P1" ORIGIN))
  = Rmax (width (rect (box_at "P1" ORIGIN)))
         (height (rect (box_at "P1" ORIGIN))) / 2 + default_margin.
Proof.
  refine (proj1 (proj2 (proj2 (proj2
    (arrow_between_endpoints (box_at "P1" ORIGIN) (box_at "P2" far_right)
                             BROADCAST_COLOR 4 _ _ _))))).
  - simpl. intros H. apply far_right_not_origin. symmetry. exact H.
  - simpl. lra.
  - simpl. lra.
Defined.

(** C2 as stated fails: between the box "P1" at the origin and the box "P2"
    at (5, 0, 0) the arrow starts at (1.1, 0, 0), whereas
    [edge_point] with margin 0 is (1, 0, 0); likewise for its end. *)
Lemma arrow_between_margin_not_zero :
  get_center (box_at "P1" ORIGIN) <> get_center (box_at "P2" far_right)
  /\ arrow_start (arrow_between (box_at "P1" ORIGIN) (box_at "P2" far_right)
                                BROADCAST_COLOR 4)
     = mkvec 1.1 0 0
  /\ edge_point (box_at "P1" ORIGIN) (get_center (box_at "P2" far_right)) 0
     = mkvec 1 0 0
  /\ arrow_start (arrow_between (box_at "P1" ORIGIN) (box_at "P2" far_right)
                                BROADCAST_COLOR 4)
     <> edge_point (box_at "P1" ORIGIN) (get_center (box_at "P2" far_right)) 0.
Proof.
  assert (N : norm (far_right - ORIGIN) = 5).
  { rewrite vsub_origin. apply norm_along_x. lra. }
  assert (E : forall m,
             edge_point (box_at "P1" ORIGIN) (get_center (box_at "P2" far_right)) m
             = mkvec (1 + m) 0 0).
  { intros m. rewrite !box_center.
    rewrite edge_point_away
      by (rewrite box_center; apply far_right_not_origin).
    rewrite box_half_extent, box_center, N.
    apply vec_eq; simpl; field. }
  split; [| split; [| split]].
  - rewrite !box_center. intros H. apply far_right_not_origin. auto.
  - unfold arrow_between; simpl arrow_start. rewrite E.
    apply vec_eq; simpl; unfold default_margin; lra.
  - rewrite E. apply vec_eq; simpl; lra.
  - unfold arrow_between; simpl arrow_start. rewrite !E.
    intros H. apply (f_equal vx) in H. simpl in H. unfold default_margin in H.
    lra.
Qed.

(** ** Broadcast bundles and shares *)

Definition broadcast_arrow (from_node target : NodeBox) : Arrow :=
  arrow_between from_node target BROADCAST_COLOR 4.

Lemma broadcast_fold (from_node : NodeBox) (l : list NodeBox) :
  forall (k : nat) (arrows : list Arrow) (labels : list Tex),
    fold_left
      (fun '(arrows, labels) '(idx, target) =>
         let arrow := arrow_between from_node target BROADCAST_COLOR 4 in
         let lbl := broadcast_label idx arrow in
         (arrows ++ [arrow], labels ++ [lbl])%list)
      (combine (seq k (List.length l)) l) (arrows, labels)
    = ((arrows ++ map (broadcast_arrow from_node) l)%list,
       (labels
        ++ map (fun it => broadcast_label (fst it)
                            (broadcast_arrow from_node (snd it)))
               (combine (seq k (List.length l)) l))%list).
Proof.
  induction l as [| t l IH]; intros k arrows labels; simpl.
  - rewrite !app_nil_r. reflexivity.
  - rewrite IH. rewrite <- !app_assoc. reflexivity.
Qed.

Lemma broadcast_with_labels_eq (from_node : NodeBox) (others : list NodeBox) :
  broadcast_with_labels from_node others
  = (map (broadcast_arrow from_node) others,
     map (fun it => broadcast_label (fst it)
                      (broadcast_arrow from_node (snd it)))
         (enumerate1 others)).
Proof. unfold broadcast_with_labels, enumerate1. apply broadcast_fold. Qed.

Lemma length_enumerate1 {A : Type} (l : list A) :
  List.length (enumerate1 l) = List.length l.
Proof.
  unfold enumerate1. rewrite length_combine, length_seq. apply Nat.min_id.
Qed.

Lemma enumerate1_snd {A : Type} (l : list A) : map snd (enumerate1 l) = l.
Proof.
  unfold enumerate1. generalize 1%nat.
  induction l as [| x l IH]; intros k; simpl; [| rewrite IH]; reflexivity.
Qed.

Lemma enumerate1_fst {A : Type} (l : list A) :
  map fst (enumerate1 l) = seq 1 (List.length l).
Proof.
  unfold enumerate1. generalize 1%nat.
  induction l as [| x l IH]; intros k; simpl; [| rewrite IH]; reflexivity.
Qed.

Lemma norm_scale_abs (v : vec) (k : R) : norm (v *. k) = norm v * Rabs k.
Proof.
  unfold norm.
  replace (dot (v *. k) (v *. k)) with (dot v v * (k * k))
    by (unfold dot; simpl; ring).
  rewrite sqrt_mult; [| apply dot_self_nonneg | nra].
  fold (Rsqr k). rewrite sqrt_Rsqr_abs. reflexivity.
Qed.

(** How far from the centre [edge_point] goes, whatever the sign of the
    margin-extended half-extent. *)
Lemma edge_point_reach (e : NodeBox) (towards : vec) (m : R) :
  towards <> get_center e ->
  norm (edge_point e towards m - get_center e)
  = Rabs (Rmax (width (rect e)) (height (rect e)) / 2 + m).
Proof.
  intros Hne. rewrite edge_point_away by assumption.
  rewrite offset_from_center, norm_scale_abs, norm_unit; [ring |].
  intros H. apply Hne, norm_zero_inv, H.
Qed.

Lemma Forall2_map_left {A B : Type} (P : B -> A -> Prop) (f : A -> B)
      (l : list A) :
  (forall x, P (f x) x) -> Forall2 P (map f l) l.
Proof. intros H. induction l; simpl; constructor; auto. Qed.

(** The closed rectangle of a box: the points within half its width and half
    its height of its centre.  The outline of the rounded rectangle lies in
    it. *)
Definition in_rect (e : NodeBox) (p : vec) : Prop :=
  Rabs (vx p - vx (get_center e)) <= width (rect e) / 2
  /\ Rabs (vy p - vy (get_center e)) <= height (rect e) / 2.

(** Where an arrow from [p] to [peer] is anchored: at the two centres when
    they coincide; otherwise on the line of the centres, each end going from
    its own box's centre towards the other box by half the larger side of
    the rectangle plus the default margin. *)
Definition anchored (p : NodeBox) (arrow : Arrow) (peer : NodeBox) : Prop :=
  (get_center peer = get_center p ->
   arrow_start arrow = get_center p /\ arrow_end arrow = get_center peer)
  /\ (get_center peer <> get_center p ->
      arrow_start arrow
      = (get_center p
         + (get_center peer - get_center p)
           /. norm (get_center peer - get_center p)
           *. (Rmax (width (rect p)) (height (rect p)) / 2 + default_margin))%vec
      /\ arrow_end arrow
         = (get_center peer
            + (get_center p - get_center peer)
              /. norm (get_center p - get_center peer)
              *. (Rmax (width (rect peer)) (height (rect peer)) / 2
                  + default_margin))%vec
      /\ norm (arrow_start arrow - get_center p)
         = Rabs (Rmax (width (rect p)) (height (rect p)) / 2 + default_margin)
      /\ norm (arrow_end arrow - get_center peer)
         = Rabs (Rmax (width (rect peer)) (height (rect peer)) / 2
                 + default_margin)).

Lemma arrow_between_anchored (p peer : NodeBox) (c : color) (w : nat) :
  anchored p (arrow_between p peer c w) peer.
Proof.
  unfold anchored, arrow_between; cbn [arrow_start arrow_end]. split.
  - intros E. split.
    + rewrite E. rewrite <- E at 1. rewrite E. apply edge_point_center.
    + rewrite <- E. apply edge_point_center.
  - intros Hne.
    assert (Hne' : get_center p <> get_center peer)
      by (intros E; apply Hne; symmetry; exact E).
    repeat split.
    + apply edge_point_away, Hne.
    + apply edge_point_away, Hne'.
    + apply edge_point_reach, Hne.
    + apply edge_point_reach, Hne'.
Qed.

(** C6 (amended).  [broadcast_with_labels p peers] returns one arrow and one
    label per peer, in the order of [peers]: the arrows are
    [arrow_between p peer BROADCAST_COLOR 4] for each peer in turn, the
    labels carry the indices 1, 2, ... in turn; for two peers [q], [r] the
    result is exactly two arrows and two labels, ordered [q], [r].  Each
    arrow starts at [p]'s edge point facing its peer and ends at the peer's
    edge point facing [p], both with the default margin 0.1: when the two
    centres differ, each end lies on the line of the centres, half the larger
    side of its box plus 0.1 away from that box's centre towards the other
    box; when they coincide, the arrow starts and ends at the centres. *)
Theorem broadcast_with_labels_spec (p : NodeBox) (peers : list NodeBox) :
  List.length (fst (broadcast_with_labels p peers)) = List.length peers
  /\ List.length (snd (broadcast_with_labels p peers)) = List.length peers
  /\ fst (broadcast_with_labels p peers)
     = map (fun peer => arrow_between p peer BROADCAST_COLOR 4) peers
  /\ map tex_src (snd (broadcast_with_labels p peers))
     = map (fun idx => ("$g^{c_{" ++ string_of_nat idx ++ "}}$")%string)
           (seq 1 (List.length peers))
  /\ map arrow_start (fst (broadcast_with_labels p peers))
     = map (fun peer => edge_point p (get_center peer) default_margin) peers
  /\ map arrow_end (fst (broadcast_with_labels p peers))
     = map (fun peer => edge_point peer (get_center p) default_margin) peers
  /\ (forall q r : NodeBox,
         broadcast_with_labels p [q; r]
         = ([arrow_between p q BROADCAST_COLOR 4;
             arrow_between p r BROADCAST_COLOR 4],
            [broadcast_label 1 (arrow_between p q BROADCAST_COLOR 4);
             broadcast_label 2 (arrow_between p r BROADCAST_COLOR 4)]))
  /\ Forall2 (anchored p) (fst (broadcast_with_labels p peers)) peers.
Proof.
  rewrite broadcast_with_labels_eq; simpl fst; simpl snd.
  repeat split.
  - apply length_map.
  - rewrite length_map. apply length_enumerate1.
  - rewrite map_map. rewrite <- enumerate1_fst, map_map. reflexivity.
  - rewrite map_map. reflexivity.
  - rewrite map_map. reflexivity.
  - apply Forall2_map_left. intros peer. apply arrow_between_anchored.
Qed.

(** Where a label sits relative to its arrow, and the arrow's direction. *)
Definition label_offset (lbl : Tex) (arrow : Arrow) : vec :=
  match tex_at lbl with
  | MovedTo p => (p - arrow_get_center arrow)%vec
  | _ => ORIGIN
  end.

Definition arrow_direction (a : Arrow) : vec :=
  (arrow_end a - arrow_start a)%vec.

Lemma Forall2_map_same {A B C : Type} (P : B -> C -> Prop)
      (f : A -> B) (g : A -> C) (l : list A) :
  (forall x, P (f x) (g x)) -> Forall2 P (map f l) (map g l).
Proof. intros H. induction l; simpl; constructor; auto. Qed.

(** C7 (amended).  Every label built by [broadcast_with_labels] is moved to
    the centre of its own arrow plus the fixed vector [UP * 0.3], and the
    label of [share_with_label] to the centre of its arrow plus [UP * 0.25]:
    the offset is vertical whatever the direction of the arrow, and its
    scalar product with the arrow's direction is 0.3 (resp. 0.25) times the
    rise of the arrow. *)
Theorem label_placement (p : NodeBox) (peers : list NodeBox) (q : NodeBox) :
  Forall2 (fun arrow lbl =>
             tex_at lbl = MovedTo (arrow_get_center arrow + UP *. 0.3)%vec
             /\ label_offset lbl arrow = UP *. 0.3
             /\ dot (label_offset lbl arrow) (arrow_direction arrow)
                = 0.3 * (vy (arrow_end arrow) - vy (arrow_start arrow)))
          (fst (broadcast_with_labels p peers))
          (snd (broadcast_with_labels p peers))
  /\ tex_at (snd (share_with_label p q))
     = MovedTo (arrow_get_center (fst (share_with_label p q)) + UP *. 0.25)%vec
  /\ label_offset (snd (share_with_label p q)) (fst (share_with_label p q))
     = UP *. 0.25
  /\ dot (label_offset (snd (share_with_label p q))
                       (fst (share_with_label p q)))
         (arrow_direction (fst (share_with_label p q)))
     = 0.25 * (vy (arrow_end (fst (share_with_label p q)))
               - vy (arrow_start (fst (share_with_label p q)))).
Proof.
  split; [| split; [| split]].
  - rewrite broadcast_with_labels_eq; simpl fst; simpl snd.
    rewrite <- (enumerate1_snd peers) at 1. rewrite map_map.
    apply Forall2_map_same. intros [idx t]. simpl fst; simpl snd.
    unfold label_offset, broadcast_label; cbn [tex_at].
    rewrite offset_from_center. repeat split.
    unfold dot, arrow_direction; simpl. ring.
  - reflexivity.
  - unfold share_with_label, label_offset; cbn [tex_at fst snd].
    apply offset_from_center.
  - unfold share_with_label, label_offset; cbn [tex_at fst snd].
    rewrite offset_from_center.
    unfold dot, arrow_direction; simpl. ring.
Qed.

Definition straight_up : vec := mkvec 0 3 0.

Lemma straight_up_not_origin : straight_up <> ORIGIN.
Proof. intros H. apply (f_equal vy) in H. simpl in H. lra. Qed.

Lemma vertical_arrow (c : color) (w : nat) :
  arrow_between (box_at "P1" ORIGIN) (box_at "P2" straight_up) c w
  = mkArrow (mkvec 0 1.1 0) (mkvec 0 1.9 0) 0 c w None.
Proof.
  unfold arrow_between. rewrite !box_center.
  rewrite !edge_point_away; rewrite ?box_center;
    try apply straight_up_not_origin;
    try (intros H; apply straight_up_not_origin; auto).
  rewrite !box_half_extent, vsub_origin.
  assert (N : norm straight_up = 3) by (apply norm_along_y; lra).
  assert (N' : norm (ORIGIN - straight_up) = 3).
  { replace (ORIGIN - straight_up)%vec with (straight_up *. (-1))
      by (apply vec_eq; simpl; ring).
    unfold norm.
    replace (dot (straight_up *. -1) (straight_up *. -1))
      with (dot straight_up straight_up) by (unfold dot; simpl; ring).
    exact N. }
  rewrite N, N'. unfold default_margin.
  f_equal; apply vec_eq;
    unfold straight_up, ORIGIN, vadd, vsub, vscale, vdiv; cbn [vx vy vz]; lra.
Qed.

(** C7 as stated fails: between the box "P1" at the origin and the box "P2"
    straight above it at (0, 3, 0) the arrow runs upwards, from (0, 1.1, 0)
    to (0, 1.9, 0), and so does the offset of its label, for the broadcast
    label and for the share label alike: the offset is parallel to the
    arrow, its scalar product with the arrow's direction is not 0. *)
Lemma label_offset_not_perpendicular :
  Forall2 (fun arrow lbl =>
             dot (label_offset lbl arrow) (arrow_direction arrow) <> 0)
          (fst (broadcast_with_labels (box_at "P1" ORIGIN)
                                      [box_at "P2" straight_up]))
          (snd (broadcast_with_labels (box_at "P1" ORIGIN)
                                      [box_at "P2" straight_up]))
  /\ dot (label_offset
            (snd (share_with_label (box_at "P1" ORIGIN)
                                   (box_at "P2" straight_up)))
            (fst (share_with_label (box_at "P1" ORIGIN)
                                   (box_at "P2" straight_up))))
         (arrow_direction
            (fst (share_with_label (box_at "P1" ORIGIN)
                                   (box_at "P2" straight_up))))
     <> 0.
Proof.
  split.
  - rewrite broadcast_with_labels_eq.
    cbn [fst snd map enumerate1 List.length seq combine].
    constructor; [| constructor].
    unfold broadcast_arrow, label_offset, broadcast_label. cbn [tex_at].
    rewrite offset_from_center, vertical_arrow.
    unfold dot, arrow_direction; simpl. lra.
  - unfold share_with_label, label_offset; cbn [tex_at fst snd].
    rewrite offset_from_center, vertical_arrow.
    unfold dot, arrow_direction; simpl. lra.
Qed.

(** ** The transitions of a node box *)

Definition active_rect (r : RoundedRectangle) : RoundedRectangle :=
  set_color NODE_COLOR_ACTIVE (set_fill NODE_COLOR_ACTIVE 0.8 r).

Definition inactive_rect (r : RoundedRectangle) : RoundedRectangle :=
  set_color NODE_COLOR_INACTIVE (set_fill NODE_COLOR_INACTIVE 0.4 r).

Lemma upd_same (h : ref -> NodeBox) (r : ref) (n : NodeBox) : upd h r n r = n.
Proof. unfold upd. rewrite Nat.eqb_refl. reflexivity. Qed.

Lemma upd_other (h : ref -> NodeBox) (r r' : ref) (n : NodeBox) :
  r' <> r -> upd h r n r' = h r'.
Proof.
  intros H. unfold upd. apply Nat.eqb_neq in H. rewrite H. reflexivity.
Qed.

(** What a call to [activate] / [deactivate] returns and does. *)
Lemma activate_run (self : ref) (s : Scene) :
  activate self s
  = (Ok (AnimationGroup
           [RectTo self (active_rect (rect (heap s self)));
            TextTo self (text_set_color WHITE (text (heap s self)))]),
     update_node self
       (with_text_target (text_set_color WHITE (text (heap s self))))
       (update_node self
          (with_rect_target (active_rect (rect (heap s self)))) s)).
Proof.
  unfold activate, rect_animate, text_animate, bind, deref, modify, ret.
  cbn [heap update_node]. rewrite upd_same. reflexivity.
Qed.

Lemma deactivate_run (self : ref) (s : Scene) :
  deactivate self s
  = (Ok (AnimationGroup
           [RectTo self (inactive_rect (rect (heap s self)));
            TextTo self (text_set_color WHITE (text (heap s self)))]),
     update_node self
       (with_text_target (text_set_color WHITE (text (heap s self))))
       (update_node self
          (with_rect_target (inactive_rect (rect (heap s self)))) s)).
Proof.
  unfold deactivate, rect_animate, text_animate, bind, deref, modify, ret.
  cbn [heap update_node]. rewrite upd_same. reflexivity.
Qed.

(** The attributes of a box other than the hidden animation targets. *)
Definition same_fields (n n' : NodeBox) : Prop :=
  label n' = label n /\ center n' = center n
  /\ rect n' = rect n /\ text n' = text n.

(** Nothing displayed and no box attribute differs between two scenes. *)
Definition untouched (s s' : Scene) : Prop :=
  (forall r : ref, same_fields (heap s r) (heap s' r))
  /\ mobjects s' = mobjects s
  /\ timeline s' = timeline s.

Lemma set_targets_untouched (self : ref) (rt : RoundedRectangle) (tt : Text)
      (s : Scene) :
  untouched s (update_node self (with_text_target tt)
                 (update_node self (with_rect_target rt) s)).
Proof.
  split; [| split; reflexivity].
  intros r. cbn [heap update_node]. rewrite upd_same.
  destruct (Nat.eq_dec r self) as [-> | Hne].
  - rewrite upd_same. repeat split.
  - rewrite !upd_other by assumption. repeat split.
Qed.

(** Scheduling a transition at once: [self.play(<transition>)]. *)
Definition transition (m : M Animation) : M unit :=
  a <- m ;; play [a] None.

Lemma transition_activate (self : ref) (s : Scene) :
  rect (heap (exec (transition (activate self)) s) self)
  = active_rect (rect (heap s self))
  /\ text (heap (exec (transition (activate self)) s) self)
     = text_set_color WHITE (text (heap s self))
  /\ center (heap (exec (transition (activate self)) s) self)
     = center (heap s self).
Proof.
  unfold exec, transition, bind. rewrite activate_run.
  cbn [snd play log render commit_all commit fold_left heap update_node
       show_animated].
  rewrite !upd_same. repeat split.
Qed.

Lemma transition_deactivate (self : ref) (s : Scene) :
  rect (heap (exec (transition (deactivate self)) s) self)
  = inactive_rect (rect (heap s self))
  /\ text (heap (exec (transition (deactivate self)) s) self)
     = text_set_color WHITE (text (heap s self))
  /\ center (heap (exec (transition (deactivate self)) s) self)
     = center (heap s self).
Proof.
  unfold exec, transition, bind. rewrite deactivate_run.
  cbn [snd play log render commit_all commit fold_left heap update_node
       show_animated].
  rewrite !upd_same. repeat split.
Qed.

(** C9.  A call of [activate], [deactivate] or [edge_point] leaves the
    position, the rectangle (fill colour, fill opacity, border colour) and
    the text (label colour) of every node box as they were, and displays and
    renders nothing: [activate] and [deactivate] only return an animation
    (and record its target); the box takes the new colours when the
    animation is played. *)
Theorem transitions_do_not_mutate (s : Scene) (self : ref)
        (target : vec) (margin : R) :
  untouched s (exec (activate self) s)
  /\ untouched s (exec (deactivate self) s)
  /\ exec (edge_point_of self target margin) s = s
  /\ rect (heap (exec (transition (activate self)) s) self)
     = active_rect (rect (heap s self))
  /\ rect (heap (exec (transition (deactivate self)) s) self)
     = inactive_rect (rect (heap s self)).
Proof.
  split; [| split; [| split; [| split]]].
  - unfold exec. rewrite activate_run. apply set_targets_untouched.
  - unfold exec. rewrite deactivate_run. apply set_targets_untouched.
  - destruct s; reflexivity.
  - apply transition_activate.
  - apply transition_deactivate.
Qed.

Lemma active_rect_idem (r : RoundedRectangle) :
  active_rect (inactive_rect (active_rect r)) = active_rect r.
Proof. reflexivity. Qed.

(** C5.  For every node box: after [activate()] has been played, playing
    [deactivate()] and then [activate()] gives back exactly the rectangle
    (fill colour and opacity, border colour) and text (label colour) that the
    first [activate()] produced; and an [activate()] called right after a
    [deactivate()] call returns the very transition the original
    [activate()] returned. *)
Theorem deactivate_activate_roundtrip (s : Scene) (self : ref) :
  let s1 := exec (transition (activate self)) s in
  let s3 := exec (transition (deactivate self) ;; transition (activate self))
                 s1 in
  rect (heap s3 self) = rect (heap s1 self)
  /\ text (heap s3 self) = text (heap s1 self)
  /\ fill_color (rect (heap s3 self)) = NODE_COLOR_ACTIVE
  /\ fill_opacity (rect (heap s3 self)) = 0.8
  /\ stroke_color (rect (heap s3 self)) = NODE_COLOR_ACTIVE
  /\ text_color (text (heap s3 self)) = WHITE
  /\ fst ((deactivate self ;; activate self) s) = fst (activate self s).
Proof.
  cbv zeta.
  set (s1 := exec (transition (activate self)) s).
  assert (E : exec (transition (deactivate self) ;; transition (activate self))
                   s1
              = exec (transition (activate self))
                     (exec (transition (deactivate self)) s1)).
  { unfold exec, transition, bind.
    rewrite deactivate_run. cbn [play fst snd]. reflexivity. }
  rewrite E.
  destruct (transition_activate self (exec (transition (deactivate self)) s1))
    as [R3 [T3 _]].
  destruct (transition_deactivate self s1) as [R2 [T2 _]].
  destruct (transition_activate self s) as [R1 [T1 _]]. fold s1 in R1, T1.
  rewrite R3, T3, R2, T2, R1, T1.
  repeat split.
  unfold bind. rewrite deactivate_run, !activate_run.
  cbn [fst heap update_node]. rewrite !upd_same. reflexivity.
Qed.

(** The colours a transition applies: those of its targets. *)
Definition label_color_of (a : Animation) : option color :=
  match a with
  | AnimationGroup [_; TextTo _ t] => Some (text_color t)
  | _ => None
  end.

Definition rect_target_of (a : Animation) : option RoundedRectangle :=
  match a with
  | AnimationGroup (RectTo _ t :: _) => Some t
  | _ => None
  end.

Definition returned {A : Type} (m : M A) (s : Scene) : option A :=
  match fst (m s) with
  | Ok a => Some a
  | Raise _ => None
  end.

Definition label_color_applied (m : M Animation) (s : Scene) : option color :=
  match returned m s with
  | Some a => label_color_of a
  | None => None
  end.

Definition rect_applied (m : M Animation) (s : Scene)
  : option RoundedRectangle :=
  match returned m s with
  | Some a => rect_target_of a
  | None => None
  end.

Lemma label_color_is_white_aux (s : Scene) (self : ref) :
  label_color_applied (activate self) s = Some WHITE
  /\ label_color_applied (deactivate self) s = Some WHITE.
Proof.
  unfold label_color_applied, returned.
  rewrite activate_run, deactivate_run. split; reflexivity.
Qed.

(** C10 (amended).  [activate()] and [deactivate()] apply the same label
    colour, white; the two display states differ in the fill colour
    (GREEN_E against GREY_A), the fill opacity (0.8 against 0.4) and the
    border colour (GREEN_E against GREY_A) of the rectangle. *)
Theorem label_color_is_white (s : Scene) (self : ref) :
  label_color_applied (activate self) s = Some WHITE
  /\ label_color_applied (deactivate self) s = Some WHITE
  /\ rect_applied (activate self) s = Some (active_rect (rect (heap s self)))
  /\ rect_applied (deactivate self) s
     = Some (inactive_rect (rect (heap s self)))
  /\ fill_color (active_rect (rect (heap s self))) = GREEN_E
  /\ fill_color (inactive_rect (rect (heap s self))) = GREY_A
  /\ stroke_color (active_rect (rect (heap s self))) = GREEN_E
  /\ stroke_color (inactive_rect (rect (heap s self))) = GREY_A
  /\ fill_opacity (active_rect (rect (heap s self))) = 0.8
  /\ fill_opacity (inactive_rect (rect (heap s self))) = 0.4.
Proof.
  unfold label_color_applied, rect_applied, returned.
  rewrite activate_run, deactivate_run. repeat split.
Qed.

(** The scene once the three boxes are laid out (lines 66-83), and the
    references [setup] returns for them. *)
Definition scene_after_setup : Scene := exec setup empty_scene.

Definition P1 : ref := 0%nat.
Definition P2 : ref := 1%nat.
Definition P3 : ref := 2%nat.

Lemma setup_returns : returned setup empty_scene = Some (P1, P2, P3).
Proof. reflexivity. Qed.

(** C10 as stated fails: for the box P1 of the scene, the label colour
    applied by [activate()] is the one applied by [deactivate()]. *)
Lemma label_colors_coincide :
  label_color_applied (activate P1) scene_after_setup = Some WHITE
  /\ label_color_applied (deactivate P1) scene_after_setup = Some WHITE
  /\ ~ (label_color_applied (activate P1) scene_after_setup
        <> label_color_applied (deactivate P1) scene_after_setup).
Proof.
  destruct (label_color_is_white_aux scene_after_setup P1) as [A D].
  rewrite A, D. repeat split. intros H. apply H. reflexivity.
Qed.

(** ** The spotlight *)

(** A box shows the active state when its rectangle is filled with the
    active colour. *)
Definition is_active (n : NodeBox) : bool :=
  color_eqb (fill_color (rect n)) NODE_COLOR_ACTIVE.

Definition active_among (nodes : list ref) (s : Scene) : list ref :=
  filter (fun r => is_active (heap s r)) nodes.

(** The scenes at the end of each directive of a timeline. *)
Fixpoint frames (s : Scene) (ds : list Directive) : list Scene :=
  match ds with
  | [] => []
  | d :: ds' => render d s :: frames (render d s) ds'
  end.

Lemma untouched_refl (s : Scene) : untouched s s.
Proof. repeat split. Qed.

Lemma untouched_trans (s1 s2 s3 : Scene) :
  untouched s1 s2 -> untouched s2 s3 -> untouched s1 s3.
Proof.
  intros [H1 [M1 T1]] [H2 [M2 T2]]. split; [| split; congruence].
  intros r. destruct (H1 r) as [? [? [? ?]]], (H2 r) as [? [? [? ?]]].
  repeat split; congruence.
Qed.

Definition deactivation (h : ref -> NodeBox) (r : ref) : Animation :=
  AnimationGroup [RectTo r (inactive_rect (rect (h r)));
                  TextTo r (text_set_color WHITE (text (h r)))].

Lemma mapM_deactivate_run (l : list ref) :
  forall s : Scene,
  exists s' : Scene,
    mapM deactivate l s = (Ok (map (deactivation (heap s)) l), s')
    /\ untouched s s'.
Proof.
  induction l as [| r l IH]; intros s; simpl.
  - exists s. split; [reflexivity | apply untouched_refl].
  - unfold bind. rewrite deactivate_run.
    set (s1 := update_node r _ (update_node r _ s)).
    assert (U1 : untouched s s1) by apply set_targets_untouched.
    destruct (IH s1) as [s' [E U]]. rewrite E. exists s'. split.
    + unfold ret. f_equal. f_equal. f_equal.
      apply map_ext. intros r'. unfold deactivation.
      destruct U1 as [H1 _]. destruct (H1 r') as [_ [_ [-> ->]]].
      reflexivity.
    + eapply untouched_trans; eassumption.
Qed.

Lemma commit_all_cons (a : Animation) (l : list Animation) (s : Scene) :
  commit_all (a :: l) s = commit_all l (commit a s).
Proof. reflexivity. Qed.

Lemma commit_deactivations (h0 : ref -> NodeBox) (l : list ref) :
  forall (s : Scene) (n : ref),
    (~ In n l ->
     heap (commit_all (map (deactivation h0) l) s) n = heap s n)
    /\ (In n l ->
        rect (heap (commit_all (map (deactivation h0) l) s) n)
        = inactive_rect (rect (h0 n))).
Proof.
  induction l as [| r l IH]; intros s n.
  - split; [reflexivity | intros []].
  - cbn [map]. rewrite commit_all_cons.
    set (s1 := commit (deactivation h0 r) s).
    assert (Hr : rect (heap s1 r) = inactive_rect (rect (h0 r))).
    { unfold s1. cbn [commit deactivation heap update_node show_animated].
      rewrite !upd_same. reflexivity. }
    assert (Ho : forall n', n' <> r -> heap s1 n' = heap s n').
    { intros n' Hne. unfold s1. cbn [commit deactivation heap update_node show_animated].
      rewrite !upd_other by assumption. reflexivity. }
    destruct (IH s1 n) as [Hout Hin].
    destruct (in_dec Nat.eq_dec n l) as [Hl | Hl]; split.
    + intros Hn. exfalso. apply Hn. right. assumption.
    + intros _. apply Hin, Hl.
    + intros Hn. rewrite Hout by assumption. apply Ho.
      intros ->. apply Hn. left. reflexivity.
    + intros [<- | Hn]; [| contradiction].
      rewrite Hout by assumption. exact Hr.
Qed.

(** After the spotlight has been played the active box shows the active
    state and every other listed box the inactive state. *)
Lemma spotlight_run (s : Scene) (nodes : list ref) (active : ref) :
  is_active (heap (exec (spotlight nodes active) s) active) = true
  /\ (forall n : ref,
         In n nodes -> n <> active ->
         is_active (heap (exec (spotlight nodes active) s) n) = false).
Proof.
  unfold exec, spotlight, bind. rewrite activate_run.
  set (s1 := update_node active _ (update_node active _ s)).
  set (others := filter (fun n => negb (Nat.eqb n active)) nodes).
  destruct (mapM_deactivate_run others s1) as [s2 [E U]]. rewrite E.
  cbn [snd play log render heap]. rewrite commit_all_cons.
  set (a := AnimationGroup _).
  split.
  - destruct (commit_deactivations (heap s1) others (commit a s2) active)
      as [Hout _].
    rewrite Hout.
    + unfold a. cbn [commit heap update_node show_animated]. rewrite !upd_same.
      reflexivity.
    + unfold others. rewrite filter_In. intros [_ H].
      rewrite Nat.eqb_refl in H. discriminate.
  - intros n Hn Hne.
    destruct (commit_deactivations (heap s1) others (commit a s2) n)
      as [_ Hin].
    unfold is_active. rewrite Hin; [reflexivity |].
    unfold others. rewrite filter_In. split; [assumption |].
    apply Nat.eqb_neq in Hne. rewrite Hne. reflexivity.
Qed.

Lemma spotlight_active_among (s : Scene) (nodes : list ref) (active : ref) :
  active_among nodes (exec (spotlight nodes active) s)
  = filter (fun n => Nat.eqb n active) nodes.
Proof.
  destruct (spotlight_run s nodes active) as [Ha Ho].
  unfold active_among. apply filter_ext_in. intros n Hn.
  destruct (Nat.eq_dec n active) as [-> | Hne].
  - rewrite Nat.eqb_refl. exact Ha.
  - rewrite (Ho n Hn Hne). symmetry. apply Nat.eqb_neq, Hne.
Qed.

(** ** The run of [construct] *)

Definition nodes : list ref := [P1; P2; P3].

Definition scene_with_boxes : Scene := exec create_nodes empty_scene.
Definition scene_after_stage1 : Scene :=
  exec (stage1 nodes P1 P2 P3) scene_after_setup.
Definition scene_after_stage2 : Scene :=
  exec (stage2 nodes P1 P2 P3) scene_after_stage1.
Definition final_scene : Scene := exec construct empty_scene.

Definition stage1_timeline : list Directive :=
  emitted (stage1 nodes P1 P2 P3) scene_after_setup.
Definition stage2_timeline : list Directive :=
  emitted (stage2 nodes P1 P2 P3) scene_after_stage1.
Definition stage3_timeline : list Directive :=
  emitted (stage3 P1 P2 P3) scene_after_stage2.

(** The frames of the whole run, from the scene in which the three boxes
    exist and nothing has been rendered yet. *)
Definition run_frames : list Scene :=
  frames scene_with_boxes (timeline final_scene).

(** Consecutive repetitions removed. *)
Fixpoint squeeze (l : list (list nat)) : list (list nat) :=
  match l with
  | [] => []
  | x :: l' =>
      match l' with
      | [] => [x]
      | y :: _ =>
          if list_eq_dec Nat.eq_dec x y then squeeze l' else x :: squeeze l'
      end
  end.

(** A play that turns the spotlight on a box: its first animation is the
    transition of that box to the active colour. *)
Definition spotlit (d : Directive) : option ref :=
  match d with
  | Play (AnimationGroup [RectTo r t; TextTo _ _] :: _) _ =>
      if color_eqb (fill_color t) NODE_COLOR_ACTIVE then Some r else None
  | _ => None
  end.

Fixpoint until_spotlight (tl : list Directive) : list Directive :=
  match tl with
  | [] => []
  | d :: tl' =>
      match spotlit d with
      | Some _ => []
      | None => d :: until_spotlight tl'
      end
  end.

(** The sub-steps of a timeline: each spotlight play opens one, which lasts
    until the next spotlight play. *)
Fixpoint sub_steps (tl : list Directive) : list (ref * list Directive) :=
  match tl with
  | [] => []
  | d :: tl' =>
      match spotlit d with
      | Some r => (r, until_spotlight tl') :: sub_steps tl'
      | None => sub_steps tl'
      end
  end.

(** The objects without submobjects below an object. *)
Fixpoint leaves (m : Mobject) : list Mobject :=
  match m with
  | MVGroup _ subs _ => flat_map leaves subs
  | _ => [m]
  end.

Definition shown_by (a : Animation) : list Mobject :=
  match a with
  | FadeIn m _ _ => [m]
  | Create m _ _ => [m]
  | Write m => [m]
  | GrowArrow m => [m]
  | _ => []
  end.

Definition hidden_by (a : Animation) : list Mobject :=
  match a with
  | FadeOut m => [m]
  | _ => []
  end.

Definition anims_of (d : Directive) : list Animation :=
  match d with
  | Play anims _ => anims
  | Wait _ => []
  end.

Definition shown (tl : list Directive) : list Mobject :=
  flat_map shown_by (flat_map anims_of tl).

Definition hidden (tl : list Directive) : list Mobject :=
  flat_map hidden_by (flat_map anims_of tl).

Definition arrows_in (ms : list Mobject) : list Arrow :=
  flat_map (fun m => match m with MArrow _ a => [a] | _ => [] end)
           (flat_map leaves ms).

Definition ticks_in (ms : list Mobject) : list Mobject :=
  filter (fun m => match m with
                   | MText _ t _ => String.eqb (text_str t) "✓"
                   | _ => false
                   end)
         (flat_map leaves ms).

(** Spotlit box, connectors drawn and confirmation marks shown, per
    sub-step. *)
Definition sub_step_summary (tl : list Directive) : list (ref * nat * nat) :=
  map (fun st => (fst st,
                  List.length (arrows_in (shown (snd st))),
                  List.length (ticks_in (shown (snd st)))))
      (sub_steps tl).

(** Groups headed by a text: the result groups of stage 3. *)
Definition title_of (m : Mobject) : option string :=
  match m with
  | MVGroup _ (MText _ t _ :: _) _ => Some (text_str t)
  | _ => None
  end.

Definition titled (m : Mobject) : bool :=
  match title_of m with
  | Some _ => true
  | None => false
  end.

Definition on_display (s : Scene) (m : Mobject) : bool :=
  forallb (fun i => existsb (Nat.eqb i) (mobjects s)) (family m).

Definition overlaps (m m' : Mobject) : bool :=
  existsb (fun i => existsb (Nat.eqb i) (family m')) (family m).

(** ** What every step of the script does to the timeline, and which steps
    can raise *)

(** A computation only appends to the timeline. *)
Definition appends {A : Type} (m : M A) : Prop :=
  forall s : Scene, exists l : list Directive,
      timeline (exec m s) = (timeline s ++ l)%list.

(** A computation returns a value from every scene. *)
Definition never_raises {A : Type} (m : M A) : Prop :=
  forall s : Scene, exists (a : A) (s' : Scene), m s = (Ok a, s').

Lemma appends_ret {A : Type} (a : A) : appends (ret a).
Proof. intros s. exists []. symmetry. apply app_nil_r. Qed.

Lemma appends_raise {A : Type} (e : exn) : appends (@raise A e).
Proof. intros s. exists []. symmetry. apply app_nil_r. Qed.

Lemma appends_bind {A B : Type} (m : M A) (k : A -> M B) :
  appends m -> (forall a, appends (k a)) -> appends (bind m k).
Proof.
  intros Hm Hk s. destruct (Hm s) as [l1 E1].
  unfold exec, bind in E1; unfold exec, bind. destruct (m s) as [[a | e] s1]; simpl in E1.
  - destruct (Hk a s1) as [l2 E2]. unfold exec in E2.
    exists (l1 ++ l2)%list. rewrite E2, E1. symmetry. apply app_assoc.
  - exists l1. exact E1.
Qed.

Lemma appends_mapM {A B : Type} (f : A -> M B) (l : list A) :
  (forall x, appends (f x)) -> appends (mapM f l).
Proof.
  intros Hf. induction l as [| x l IH]; simpl.
  - apply appends_ret.
  - apply appends_bind; [apply Hf | intros y].
    apply appends_bind; [apply IH | intros ys]. apply appends_ret.
Qed.

Lemma appends_forM_ {A : Type} (l : list A) (body : A -> M unit) :
  (forall x, appends (body x)) -> appends (forM_ l body).
Proof.
  intros Hb. induction l as [| x l IH]; simpl.
  - apply appends_ret.
  - apply appends_bind; [apply Hb | intros _; apply IH].
Qed.

Lemma appends_new_id : appends new_id.
Proof. intros s. exists []. symmetry. apply app_nil_r. Qed.

Lemma appends_deref (r : ref) : appends (deref r).
Proof. intros s. exists []. symmetry. apply app_nil_r. Qed.

Lemma appends_modify (r : ref) (f : NodeBox -> NodeBox) : appends (modify r f).
Proof. intros s. exists []. symmetry. apply app_nil_r. Qed.

Lemma appends_getitem {A : Type} (l : list A) (i : nat) : appends (getitem l i).
Proof.
  unfold getitem. destruct (nth_error l i);
    [apply appends_ret | apply appends_raise].
Qed.

(** Moving boxes touches the heap only. *)
Lemma move_fold_frame (targets : list (ref * vec)) :
  forall s : Scene,
    timeline (fold_left (fun s' '(r, p) => update_node r (move_to p) s')
                        targets s) = timeline s
    /\ next_id (fold_left (fun s' '(r, p) => update_node r (move_to p) s')
                          targets s) = next_id s
    /\ mobjects (fold_left (fun s' '(r, p) => update_node r (move_to p) s')
                           targets s) = mobjects s.
Proof.
  induction targets as [| [r p] targets IHt]; intros s; cbn [fold_left].
  - repeat split.
  - destruct (IHt (update_node r (move_to p) s)) as [T [N M]].
    rewrite T, N, M. repeat split.
Qed.

Lemma commit_timeline :
  forall (a : Animation) (s : Scene), timeline (commit a s) = timeline s.
Proof.
  fix IH 1. intros a. destruct a as [| | | | | | | targets | anims];
    intros s; try reflexivity.
  - cbn [commit]. rewrite (proj1 (move_fold_frame targets _)). reflexivity.
  - simpl. revert s.
    induction anims as [| a' l IHl]; intros s.
    + reflexivity.
    + rewrite IHl. apply IH.
Qed.

Lemma commit_all_timeline (anims : list Animation) :
  forall s : Scene, timeline (commit_all anims s) = timeline s.
Proof.
  induction anims as [| a l IHl]; intros s.
  - reflexivity.
  - rewrite commit_all_cons, IHl. apply commit_timeline.
Qed.

Lemma play_timeline (anims : list Animation) (run_time : option R) (s : Scene) :
  timeline (exec (play anims run_time) s)
  = (timeline s ++ [Play anims run_time])%list.
Proof.
  unfold exec, play; cbn [snd log timeline render].
  rewrite commit_all_timeline. reflexivity.
Qed.

Lemma appends_play (anims : list Animation) (run_time : option R) :
  appends (play anims run_time).
Proof. intros s. eexists. apply play_timeline. Qed.

Lemma appends_wait (duration : R) : appends (wait duration).
Proof. intros s. exists [Wait duration]. reflexivity. Qed.

Create HintDb scene.
#[local] Hint Resolve appends_ret appends_raise appends_new_id appends_deref
  appends_modify appends_getitem appends_play appends_wait : scene.

Ltac appends_steps :=
  repeat first
    [ apply appends_bind; [| intros ]
    | apply appends_mapM; intros
    | apply appends_forM_; intros
    | match goal with
      | |- appends (let '(_, _) := ?x in _) => destruct x
      end
    | solve [auto with scene] ].

Lemma appends_activate (self : ref) : appends (activate self).
Proof. unfold activate, rect_animate, text_animate. appends_steps. Qed.

Lemma appends_deactivate (self : ref) : appends (deactivate self).
Proof. unfold deactivate, rect_animate, text_animate. appends_steps. Qed.

#[local] Hint Resolve appends_activate appends_deactivate : scene.

Lemma appends_spotlight (nodes : list ref) (active : ref) :
  appends (spotlight nodes active).
Proof. unfold spotlight. appends_steps. Qed.

Lemma appends_new_group {X : Type} (wrap : nat -> X -> Mobject) (xs : list X) :
  appends (new_group wrap xs).
Proof. unfold new_group. appends_steps. Qed.

Lemma appends_brief (txt : string) : appends (brief txt).
Proof. unfold brief. appends_steps. Qed.

#[local] Hint Resolve appends_spotlight appends_new_group appends_brief : scene.

Lemma appends_stage1_turn (nodes : list ref) (turn : ref * list ref) :
  appends (stage1_turn nodes turn).
Proof. unfold stage1_turn. appends_steps. Qed.

Lemma appends_stage2_turn (nodes : list ref) (turn : ref * list ref) :
  appends (stage2_turn nodes turn).
Proof. unfold stage2_turn. appends_steps. Qed.

#[local] Hint Resolve appends_stage1_turn appends_stage2_turn : scene.

Lemma appends_stage1 (nodes : list ref) (p1 p2 p3 : ref) :
  appends (stage1 nodes p1 p2 p3).
Proof. unfold stage1, stage1_loop, stage_label. appends_steps. Qed.

Lemma appends_stage2 (nodes : list ref) (p1 p2 p3 : ref) :
  appends (stage2 nodes p1 p2 p3).
Proof. unfold stage2, stage2_loop, stage_label. appends_steps. Qed.

Lemma appends_stage3 (p1 p2 p3 : ref) : appends (stage3 p1 p2 p3).
Proof. unfold stage3, stage_label. appends_steps. Qed.

Lemma appends_setup : appends setup.
Proof.
  unfold setup, create_nodes, new_NodeBox, group_animate_move_to.
  appends_steps.
Qed.

#[local] Hint Resolve appends_stage1 appends_stage2 appends_stage3
  appends_setup : scene.

Lemma appends_construct : appends construct.
Proof. unfold construct. appends_steps. Qed.

(** What a computation appended is what [emitted] reports. *)
Lemma emitted_spec {A : Type} (m : M A) (s : Scene) :
  appends m -> timeline (exec m s) = (timeline s ++ emitted m s)%list.
Proof.
  intros H. destruct (H s) as [l E]. unfold emitted. rewrite E.
  rewrite skipn_app, skipn_all, Nat.sub_diag. reflexivity.
Qed.

Lemma never_raises_ret {A : Type} (a : A) : never_raises (ret a).
Proof. intros s. exists a, s. reflexivity. Qed.

Lemma never_raises_bind {A B : Type} (m : M A) (k : A -> M B) :
  never_raises m -> (forall a, never_raises (k a)) -> never_raises (bind m k).
Proof.
  intros Hm Hk s. destruct (Hm s) as [a [s1 E1]].
  destruct (Hk a s1) as [b [s2 E2]].
  exists b, s2. unfold bind. rewrite E1. exact E2.
Qed.

Lemma never_raises_mapM {A B : Type} (f : A -> M B) (l : list A) :
  (forall x, never_raises (f x)) -> never_raises (mapM f l).
Proof.
  intros Hf. induction l as [| x l IH]; simpl.
  - apply never_raises_ret.
  - apply never_raises_bind; [apply Hf | intros y].
    apply never_raises_bind; [apply IH | intros ys]. apply never_raises_ret.
Qed.

Lemma never_raises_forM_ {A : Type} (l : list A) (body : A -> M unit) :
  (forall x, never_raises (body x)) -> never_raises (forM_ l body).
Proof.
  intros Hb. induction l as [| x l IH]; simpl.
  - apply never_raises_ret.
  - apply never_raises_bind; [apply Hb | intros _; apply IH].
Qed.

Lemma never_raises_new_id : never_raises new_id.
Proof. intros s. eexists _, _. reflexivity. Qed.

Lemma never_raises_deref (r : ref) : never_raises (deref r).
Proof. intros s. eexists _, _. reflexivity. Qed.

Lemma never_raises_modify (r : ref) (f : NodeBox -> NodeBox) :
  never_raises (modify r f).
Proof. intros s. eexists _, _. reflexivity. Qed.

Lemma never_raises_play (anims : list Animation) (run_time : option R) :
  never_raises (play anims run_time).
Proof. intros s. eexists _, _. reflexivity. Qed.

Lemma never_raises_wait (duration : R) : never_raises (wait duration).
Proof. intros s. eexists _, _. reflexivity. Qed.

#[local] Hint Resolve never_raises_ret never_raises_new_id never_raises_deref
  never_raises_modify never_raises_play never_raises_wait : scene.

Ltac never_raises_steps :=
  repeat first
    [ apply never_raises_bind; [| intros ]
    | apply never_raises_mapM; intros
    | apply never_raises_forM_; intros
    | match goal with
      | |- never_raises (let '(_, _) := ?x in _) => destruct x
      end
    | solve [auto with scene] ].

Lemma never_raises_activate (self : ref) : never_raises (activate self).
Proof. unfold activate, rect_animate, text_animate. never_raises_steps. Qed.

Lemma never_raises_deactivate (self : ref) : never_raises (deactivate self).
Proof. unfold deactivate, rect_animate, text_animate. never_raises_steps. Qed.

#[local] Hint Resolve never_raises_activate never_raises_deactivate : scene.

Lemma never_raises_spotlight (nodes : list ref) (active : ref) :
  never_raises (spotlight nodes active).
Proof. unfold spotlight. never_raises_steps. Qed.

Lemma never_raises_new_group {X : Type} (wrap : nat -> X -> Mobject)
      (xs : list X) :
  never_raises (new_group wrap xs).
Proof. unfold new_group. never_raises_steps. Qed.

Lemma never_raises_brief (txt : string) : never_raises (brief txt).
Proof. unfold brief. never_raises_steps. Qed.

#[local] Hint Resolve never_raises_spotlight never_raises_new_group
  never_raises_brief : scene.

Lemma never_raises_stage1_turn (nodes : list ref) (turn : ref * list ref) :
  never_raises (stage1_turn nodes turn).
Proof. unfold stage1_turn. never_raises_steps. Qed.

Lemma never_raises_stage1_loop (nodes : list ref)
      (script : list (ref * list ref)) :
  never_raises (stage1_loop nodes script).
Proof.
  unfold stage1_loop. apply never_raises_forM_. intros turn.
  apply never_raises_stage1_turn.
Qed.

Lemma succeeds_of_never_raises {A : Type} (m : M A) (s : Scene) :
  never_raises m -> succeeds m s = true.
Proof.
  intros H. destruct (H s) as [a [s' E]]. unfold succeeds. rewrite E.
  reflexivity.
Qed.

(** Running the parts of [construct] one after the other. *)
Lemma run_ok {A : Type} (m : M A) (s : Scene) (a : A) :
  fst (m s) = Ok a -> m s = (Ok a, exec m s).
Proof. unfold exec. destruct (m s) as [r s']; simpl. intros ->. reflexivity. Qed.

Lemma exec_bind {A B : Type} (m : M A) (k : A -> M B) (s : Scene) (a : A) :
  fst (m s) = Ok a -> exec (bind m k) s = exec (k a) (exec m s).
Proof.
  intros H. unfold exec at 1, bind. rewrite (run_ok m s a H). reflexivity.
Qed.

Lemma construct_by_stages (s : Scene) (p1 p2 p3 : ref) :
  fst (setup s) = Ok (p1, p2, p3) ->
  fst (stage1 [p1; p2; p3] p1 p2 p3 (exec setup s)) = Ok tt ->
  fst (stage2 [p1; p2; p3] p1 p2 p3
              (exec (stage1 [p1; p2; p3] p1 p2 p3) (exec setup s))) = Ok tt ->
  exec construct s
  = exec (stage3 p1 p2 p3)
         (exec (stage2 [p1; p2; p3] p1 p2 p3)
               (exec (stage1 [p1; p2; p3] p1 p2 p3) (exec setup s))).
Proof.
  intros H0 H1 H2. unfold construct.
  rewrite (exec_bind _ _ _ _ H0). cbv beta iota.
  rewrite (exec_bind _ _ _ _ H1).
  rewrite (exec_bind _ _ _ _ H2). reflexivity.
Qed.

Lemma setup_ok : fst (setup empty_scene) = Ok (P1, P2, P3).
Proof. vm_compute. reflexivity. Qed.

Lemma stage1_ok :
  fst (stage1 [P1; P2; P3] P1 P2 P3 (exec setup empty_scene)) = Ok tt.
Proof. vm_compute. reflexivity. Qed.

Lemma stage2_ok :
  fst (stage2 [P1; P2; P3] P1 P2 P3
              (exec (stage1 [P1; P2; P3] P1 P2 P3) (exec setup empty_scene)))
  = Ok tt.
Proof. vm_compute. reflexivity. Qed.

Lemma final_scene_by_stages :
  final_scene = exec (stage3 P1 P2 P3) scene_after_stage2.
Proof.
  exact (construct_by_stages empty_scene P1 P2 P3 setup_ok stage1_ok stage2_ok).
Qed.

Lemma app_chain {A : Type} (a b c d x1 x2 x3 : list A) :
  d = (c ++ x3)%list -> c = (b ++ x2)%list -> b = (a ++ x1)%list ->
  d = (a ++ x1 ++ x2 ++ x3)%list.
Proof. intros -> -> ->. rewrite <- !app_assoc. reflexivity. Qed.

Lemma final_timeline_by_stages :
  timeline final_scene
  = (timeline scene_after_setup ++ stage1_timeline ++ stage2_timeline
     ++ stage3_timeline)%list.
Proof.
  refine (app_chain _ _ _ _ _ _ _
            (eq_trans (f_equal timeline final_scene_by_stages)
               (emitted_spec (stage3 P1 P2 P3) scene_after_stage2
                             (appends_stage3 P1 P2 P3)))
            (emitted_spec (stage2 nodes P1 P2 P3) scene_after_stage1
                          (appends_stage2 nodes P1 P2 P3))
            (emitted_spec (stage1 nodes P1 P2 P3) scene_after_setup
                          (appends_stage1 nodes P1 P2 P3))).
Qed.

(** C8.  The spotlight play makes exactly the spotlit box active among the
    listed boxes, whatever the scene: the boxes of the list that show the
    active state afterwards are the occurrences of the spotlit one.  In the
    run of [construct], at the end of every directive at most one of P1, P2,
    P3 is active; over the run the active boxes are, in order, none, P1, P2,
    P3 (stage 1), P1, P2, P3 (stage 2), each turning active in the very play
    that turns the previous one inactive.  The frames replay the timeline
    from the scene in which the boxes were created and end in the
    rectangles of the final scene. *)
Theorem one_active_box_at_a_time :
  (forall (s : Scene) (boxes : list ref) (active : ref),
      active_among boxes (exec (spotlight boxes active) s)
      = filter (fun n => Nat.eqb n active) boxes)
  /\ forallb (fun s => Nat.leb (List.length (active_among nodes s)) 1)
             run_frames = true
  /\ squeeze (map (active_among nodes) run_frames)
     = [[]; [P1]; [P2]; [P3]; [P1]; [P2]; [P3]]
  /\ map (fun r => rect (heap (last run_frames scene_with_boxes) r)) nodes
     = map (fun r => rect (heap final_scene r)) nodes.
Proof.
  split; [| split; [| split]].
  - intros s boxes active. apply spotlight_active_among.
  - vm_compute. reflexivity.
  - vm_compute. reflexivity.
  - vm_compute. reflexivity.
Qed.

(** C4.  The run of [construct] raises nothing and its timeline is that of
    the set-up followed by those of the three stages.  Stage 1 has exactly
    three sub-steps, spotlighting P1, P2 and P3 in turn, each drawing 2
    arrows (and no tick); stage 2 has exactly three sub-steps, P1, P2, P3,
    each drawing 2 arrows and showing 2 ticks; stage 3 has no spotlight,
    draws exactly 3 arrows, which all end at one point, shows exactly two
    groups headed by a text, "Group public key" and "Group private key", fades
    out nothing that belongs to them, and both are on display in the final
    scene. *)
Theorem construct_scenario :
  succeeds construct empty_scene = true
  /\ timeline final_scene
     = (timeline scene_after_setup ++ stage1_timeline ++ stage2_timeline
        ++ stage3_timeline)%list
  /\ sub_step_summary stage1_timeline
     = [(P1, 2, 0); (P2, 2, 0); (P3, 2, 0)]%nat
  /\ sub_step_summary stage2_timeline
     = [(P1, 2, 2); (P2, 2, 2); (P3, 2, 2)]%nat
  /\ sub_step_summary stage3_timeline = []
  /\ List.length (arrows_in (shown stage3_timeline)) = 3%nat
  /\ (exists p : vec,
         map arrow_end (arrows_in (shown stage3_timeline)) = [p; p; p])
  /\ map title_of (filter titled (shown stage3_timeline))
     = [Some "Group public key"%string; Some "Group private key"%string]
  /\ forallb (fun g => negb (existsb (overlaps g) (hidden stage3_timeline)))
             (filter titled (shown stage3_timeline)) = true
  /\ forallb (on_display final_scene) (filter titled (shown stage3_timeline))
     = true.
Proof.
  split; [vm_compute; reflexivity |].
  split; [apply final_timeline_by_stages |].
  split; [vm_compute; reflexivity |].
  split; [vm_compute; reflexivity |].
  split; [vm_compute; reflexivity |].
  split; [vm_compute; reflexivity |].
  split; [eexists; lazy - [vadd vscale get_bottom DOWN]; reflexivity |].
  split; [vm_compute; reflexivity |].
  split; vm_compute; reflexivity.
Qed.

(** ** What the script of [construct] asks for *)





(** * Further properties of the geometry *)

Lemma norm_pos_of_ne (a b : vec) : a <> b -> 0 < norm (a - b).
Proof.
  intros Hne. pose proof (norm_nonneg (a - b)) as H.
  destruct (Req_dec_T (norm (a - b)) 0) as [E | E]; [| lra].
  exfalso. apply Hne, norm_zero_inv, E.
Qed.

(** X1.  [edge_point] depends on the direction of the target only: moving
    the target along the ray from the centre, by any factor [k > 0], gives
    the same point. *)
Theorem edge_point_direction_only (e : NodeBox) (towards : vec) (k m : R) :
  0 < k ->
  edge_point e (get_center e + (towards - get_center e) *. k)%vec m
  = edge_point e towards m.
Proof.
  intros Hk.
  destruct (Req_dec_T (norm (towards - get_center e)) 0) as [E | E].
  - apply norm_zero_inv in E. subst towards.
    replace (get_center e + (get_center e - get_center e) *. k)%vec
      with (get_center e) by (apply vec_eq; simpl; ring).
    reflexivity.
  - assert (Hne : towards <> get_center e).
    { intros ->. apply E, norm_same. }
    assert (Hne' : (get_center e + (towards - get_center e) *. k)%vec
                   <> get_center e).
    { intros H. apply E.
      assert (D : ((towards - get_center e) *. k)%vec = ORIGIN).
      { rewrite <- (offset_from_center (get_center e)
                      ((towards - get_center e) *. k)).
        rewrite H. apply vec_eq; simpl; ring. }
      pose proof (norm_scale (towards - get_center e) k (Rlt_le _ _ Hk)) as N.
      rewrite D in N.
      replace (norm ORIGIN) with 0 in N
        by (symmetry; apply (norm_along_x 0); lra).
      symmetry in N. apply Rmult_integral in N. destruct N; [assumption | lra]. }
    rewrite !edge_point_away by assumption.
    rewrite offset_from_center, norm_scale by lra.
    apply vec_eq; simpl; field; split; lra.
Qed.

Lemma edge_point_direction_only_witness :
  edge_point (box_at "P1" ORIGIN)
             (get_center (box_at "P1" ORIGIN)
              + (RIGHT - get_center (box_at "P1" ORIGIN)) *. 5)%vec
             default_margin
  = edge_point (box_at "P1" ORIGIN) RIGHT default_margin.
Proof.
  apply (edge_point_direction_only (box_at "P1" ORIGIN) RIGHT 5 default_margin).
  lra.
Defined.

(** The margin-extended half-extent of a box: how far from the centre
    [edge_point] goes with the default margin. *)
Definition reach (e : NodeBox) : R :=
  Rmax (width (rect e)) (height (rect e)) / 2 + default_margin.

Lemma norm_swap (a b : vec) : norm (a - b) = norm (b - a).
Proof. unfold norm. f_equal. unfold dot; simpl. ring. Qed.

Lemma arrow_direction_scaled (a b : NodeBox) (c : color) (w : nat) :
  get_center a <> get_center b ->
  arrow_direction (arrow_between a b c w)
  = ((get_center b - get_center a)
     *. ((norm (get_center b - get_center a) - reach a - reach b)
         / norm (get_center b - get_center a)))%vec.
Proof.
  intros Hne.
  assert (Hne' : get_center b <> get_center a) by (intros E; apply Hne; auto).
  pose proof (norm_pos_of_ne _ _ Hne') as Hd.
  unfold arrow_direction, arrow_between; cbn [arrow_start arrow_end].
  rewrite !edge_point_away by assumption.
  rewrite (norm_swap (get_center a) (get_center b)). unfold reach.
  apply vec_eq; simpl; field; lra.
Qed.

(** X2.  The arrow between two boxes with different centres runs along the
    line of the centres: its vector is the vector from [a]'s centre to
    [b]'s scaled by [(d - reach a - reach b) / d], where [d] is the distance
    of the centres; its scalar product with the vector of the centres is
    [d * (d - reach a - reach b)], so the arrow points from [a] to [b] only
    when the centres are further apart than both reaches, and points
    backwards when they are closer. *)
Theorem arrow_between_direction (a b : NodeBox) (c : color) (w : nat) :
  get_center a <> get_center b ->
  arrow_direction (arrow_between a b c w)
  = ((get_center b - get_center a)
     *. ((norm (get_center b - get_center a) - reach a - reach b)
         / norm (get_center b - get_center a)))%vec
  /\ dot (arrow_direction (arrow_between a b c w))
         (get_center b - get_center a)
     = norm (get_center b - get_center a)
       * (norm (get_center b - get_center a) - reach a - reach b).
Proof.
  intros Hne.
  assert (Hne' : get_center b <> get_center a) by (intros E; apply Hne; auto).
  pose proof (norm_pos_of_ne _ _ Hne') as Hd.
  split; [apply arrow_direction_scaled, Hne |].
  rewrite (arrow_direction_scaled a b c w Hne).
  set (d := norm (get_center b - get_center a)) in * .
  set (v := (get_center b - get_center a)%vec) in * .
  replace (dot (v *. ((d - reach a - reach b) / d)) v)
    with (dot v v * ((d - reach a - reach b) / d))
    by (unfold dot; simpl; ring).
  rewrite <- (norm_sqr v). fold d. field. lra.
Qed.

Lemma arrow_between_direction_witness :
  dot (arrow_direction (arrow_between (box_at "P1" ORIGIN)
                                      (box_at "P2" far_right) SHARE_COLOR 6))
      (get_center (box_at "P2" far_right) - get_center (box_at "P1" ORIGIN))
  = norm (get_center (box_at "P2" far_right) - get_center (box_at "P1" ORIGIN))
    * (norm (get_center (box_at "P2" far_right)
             - get_center (box_at "P1" ORIGIN))
       - reach (box_at "P1" ORIGIN) - reach (box_at "P2" far_right)).
Proof.
  refine (proj2 (arrow_between_direction (box_at "P1" ORIGIN)
                                         (box_at "P2" far_right)
                                         SHARE_COLOR 6 _)).
  simpl. intros H. apply far_right_not_origin. symmetry. exact H.
Defined.

(** X3.  [edge_point] goes the larger half-side plus the margin away from
    the centre in every direction, so towards a corner it can stop inside
    the rectangle: for a box of positive width and height and a margin that
    keeps the reach below the half-diagonal, the point towards the upper
    right corner is strictly inside the bounding rectangle. *)
Theorem edge_point_inside_towards_corner (e : NodeBox) (m : R) :
  0 < width (rect e) ->
  0 < height (rect e) ->
  0 <= Rmax (width (rect e)) (height (rect e)) / 2 + m ->
  Rmax (width (rect e)) (height (rect e)) / 2 + m
  < norm (mkvec (width (rect e) / 2) (height (rect e) / 2) 0) ->
  Rabs (vx (edge_point e (get_center e
                          + mkvec (width (rect e) / 2) (height (rect e) / 2) 0)
                       m)
        - vx (get_center e)) < width (rect e) / 2
  /\ Rabs (vy (edge_point e (get_center e
                             + mkvec (width (rect e) / 2)
                                     (height (rect e) / 2) 0)
                          m)
           - vy (get_center e)) < height (rect e) / 2.
Proof.
  intros Hw Hh Hr Hlt.
  set (corner := mkvec (width (rect e) / 2) (height (rect e) / 2) 0) in * .
  set (r := Rmax (width (rect e)) (height (rect e)) / 2 + m) in * .
  assert (Hn : 0 < norm corner) by lra.
  assert (Hne : (get_center e + corner)%vec <> get_center e).
  { intros H. apply (f_equal vx) in H. simpl in H. lra. }
  rewrite edge_point_away by assumption.
  rewrite offset_from_center. fold r.
  assert (Hq : 0 <= r / norm corner < 1).
  { split.
    - apply Rmult_le_pos; [assumption | left; apply Rinv_0_lt_compat, Hn].
    - apply (Rmult_lt_reg_r (norm corner)); [assumption |].
      unfold Rdiv. rewrite Rmult_assoc, Rinv_l by lra. lra. }
  split.
  - replace (vx (get_center e + corner /. norm corner *. r) - vx (get_center e))
      with (width (rect e) / 2 * (r / norm corner))
      by (simpl; field; lra).
    rewrite Rabs_pos_eq by (apply Rmult_le_pos; lra). nra.
  - replace (vy (get_center e + corner /. norm corner *. r) - vy (get_center e))
      with (height (rect e) / 2 * (r / norm corner))
      by (simpl; field; lra).
    rewrite Rabs_pos_eq by (apply Rmult_le_pos; lra). nra.
Qed.

Lemma corner_beyond_reach :
  Rmax (width (rect (box_at "P1" ORIGIN))) (height (rect (box_at "P1" ORIGIN)))
  / 2 + default_margin
  < norm (mkvec (width (rect (box_at "P1" ORIGIN)) / 2)
                (height (rect (box_at "P1" ORIGIN)) / 2) 0).
Proof.
  rewrite box_half_extent. unfold default_margin, norm, dot. simpl.
  rewrite <- (sqrt_square (1 + 0.1)) by lra.
  apply sqrt_lt_1_alt. lra.
Qed.

Lemma edge_point_inside_towards_corner_witness :
  Rabs (vx (edge_point (box_at "P1" ORIGIN)
                       (get_center (box_at "P1" ORIGIN)
                        + mkvec (width (rect (box_at "P1" ORIGIN)) / 2)
                                (height (rect (box_at "P1" ORIGIN)) / 2) 0)
                       default_margin)
        - vx (get_center (box_at "P1" ORIGIN)))
  < width (rect (box_at "P1" ORIGIN)) / 2
  /\ Rabs (vy (edge_point (box_at "P1" ORIGIN)
                          (get_center (box_at "P1" ORIGIN)
                           + mkvec (width (rect (box_at "P1" ORIGIN)) / 2)
                                   (height (rect (box_at "P1" ORIGIN)) / 2) 0)
                          default_margin)
           - vy (get_center (box_at "P1" ORIGIN)))
     < height (rect (box_at "P1" ORIGIN)) / 2.
Proof.
  apply (edge_point_inside_towards_corner (box_at "P1" ORIGIN) default_margin).
  - simpl. lra.
  - simpl. lra.
  - rewrite box_half_extent. unfold default_margin. lra.
  - apply corner_beyond_reach.
Defined.

(** X4.  The two broadcast helpers of [construct] agree: [broadcast] builds
    exactly the arrows that [broadcast_with_labels] returns, in the same
    order, for every sender and every list of targets. *)
Theorem broadcast_agrees (from_node : NodeBox) (others : list NodeBox) :
  broadcast from_node others = fst (broadcast_with_labels from_node others).
Proof. rewrite broadcast_with_labels_eq. reflexivity. Qed.

(** * Further properties of the scene *)

Lemma mapM_deref (l : list ref) (s : Scene) :
  mapM deref l s = (Ok (map (heap s) l), s).
Proof.
  induction l as [| r l IH]; simpl.
  - reflexivity.
  - unfold bind at 1. unfold deref at 1. unfold bind at 1.
    rewrite IH. reflexivity.
Qed.

Lemma combine_map_self {A B : Type} (f : A -> B) (l : list A) :
  combine l (map f l) = map (fun x => (x, f x)) l.
Proof. induction l as [| x l IH]; simpl; [| rewrite IH]; reflexivity. Qed.

Definition move_all (targets : list (ref * vec)) (s : Scene) : Scene :=
  fold_left (fun s' '(r, p) => update_node r (move_to p) s') targets s.

Lemma move_to_twice (p q : vec) (n : NodeBox) :
  move_to p (move_to q n) = move_to p n.
Proof. reflexivity. Qed.

Lemma move_all_cons (r : ref) (p : vec) (targets : list (ref * vec))
      (s : Scene) :
  move_all ((r, p) :: targets) s
  = move_all targets (update_node r (move_to p) s).
Proof. reflexivity. Qed.

(** Moving every box of a list to a position computed from its reference. *)
Lemma move_all_heap (f : ref -> vec) (l : list ref) :
  forall (s : Scene) (r : ref),
    (In r l ->
     heap (move_all (map (fun x => (x, f x)) l) s) r = move_to (f r) (heap s r))
    /\ (~ In r l ->
        heap (move_all (map (fun x => (x, f x)) l) s) r = heap s r).
Proof.
  induction l as [| r0 l IH]; intros s r.
  - split; [intros [] | reflexivity].
  - cbn [map]. rewrite move_all_cons.
    set (s1 := update_node r0 (move_to (f r0)) s).
    destruct (IH s1 r) as [Hin Hout].
    assert (H1 : move_to (f r) (heap s1 r) = move_to (f r) (heap s r)).
    { unfold s1. cbn [heap update_node].
      destruct (Nat.eq_dec r r0) as [-> | Hne].
      - rewrite upd_same. apply move_to_twice.
      - rewrite upd_other by assumption. reflexivity. }
    destruct (in_dec Nat.eq_dec r l) as [Hl | Hl]; split.
    + intros _. rewrite (Hin Hl). exact H1.
    + intros Hn. exfalso. apply Hn. right. assumption.
    + intros [-> | Hr]; [| contradiction].
      rewrite (Hout Hl). unfold s1. cbn [heap update_node].
      apply upd_same.
    + intros Hn. rewrite (Hout Hl). unfold s1. cbn [heap update_node].
      apply upd_other. intros ->. apply Hn. left. reflexivity.
Qed.

Lemma fold_Rmin_shift (k : R) (l : list R) :
  forall a : R,
    fold_left Rmin (map (fun x => x + k) l) (a + k) = fold_left Rmin l a + k.
Proof.
  induction l as [| x l IH]; intros a; simpl; [reflexivity |].
  rewrite <- IH. f_equal. unfold Rmin.
  destruct (Rle_dec (a + k) (x + k)), (Rle_dec a x); lra.
Qed.

Lemma fold_Rmax_shift (k : R) (l : list R) :
  forall a : R,
    fold_left Rmax (map (fun x => x + k) l) (a + k) = fold_left Rmax l a + k.
Proof.
  induction l as [| x l IH]; intros a; simpl; [reflexivity |].
  rewrite <- IH. f_equal. unfold Rmax.
  destruct (Rle_dec (a + k) (x + k)), (Rle_dec a x); lra.
Qed.

Lemma span_shift (lo hi : NodeBox -> R) (g : NodeBox -> NodeBox) (k : R)
      (ns : list NodeBox) :
  ns <> [] ->
  (forall n, lo (g n) = lo n + k) ->
  (forall n, hi (g n) = hi n + k) ->
  span lo hi (map g ns) = span lo hi ns + k.
Proof.
  intros Hne Hlo Hhi. destruct ns as [| n ns]; [contradiction |].
  cbn [span map]. rewrite !map_map.
  rewrite (map_ext (fun x => lo (g x)) (fun x => lo x + k)) by apply Hlo.
  rewrite (map_ext (fun x => hi (g x)) (fun x => hi x + k)) by apply Hhi.
  rewrite <- (map_map lo (fun x => x + k)), <- (map_map hi (fun x => x + k)).
  rewrite Hlo, Hhi, fold_Rmin_shift, fold_Rmax_shift. lra.
Qed.

Lemma group_center_shift (v : vec) (ns : list NodeBox) :
  ns <> [] ->
  group_center (map (fun n => move_to (center n + v) n) ns)
  = (group_center ns + v)%vec.
Proof.
  intros Hne. unfold group_center.
  apply vec_eq; cbn [vx vy vz vadd];
    apply (span_shift _ _ (fun n => move_to (center n + v) n));
    try assumption; intros n; simpl; ring.
Qed.

(** X5.  Playing [group.animate.move_to(p)] on a non-empty group of boxes
    shifts every member by one and the same vector, keeps its rectangle and
    text, and brings the centre of the bounding box of the group to [p]; it
    raises nothing. *)
Theorem group_move_centres (members : list ref) (p : vec) (s : Scene) :
  members <> [] ->
  let shift := (p - group_center (map (heap s) members))%vec in
  let s' := exec (a <- group_animate_move_to members p ;; play [a] None) s in
  succeeds (a <- group_animate_move_to members p ;; play [a] None) s = true
  /\ (forall r : ref,
         In r members ->
         heap s' r = move_to (center (heap s r) + shift) (heap s r))
  /\ (forall r : ref, ~ In r members -> heap s' r = heap s r)
  /\ group_center (map (heap s') members) = p.
Proof.
  intros Hne shift s'.
  assert (E : (a <- group_animate_move_to members p ;; play [a] None) s
              = (Ok tt,
                 log (Play [MoveTo (map (fun r => (r, (center (heap s r) + shift)%vec))
                                        members)] None)
                     (move_all (map (fun r => (r, (center (heap s r) + shift)%vec))
                                    members)
                               (show_animated
                                  (map fst
                                       (map (fun r => (r, (center (heap s r)
                                                           + shift)%vec))
                                            members)) s)))).
  { unfold group_animate_move_to, bind. rewrite mapM_deref.
    unfold ret, play. cbn [render commit_all fold_left commit].
    rewrite map_map, combine_map_self. reflexivity. }
  assert (Hin : forall r, In r members ->
                          heap s' r = move_to (center (heap s r) + shift) (heap s r)).
  { intros r Hr. unfold s', exec. rewrite E. cbn [snd log heap].
    apply (move_all_heap (fun r => (center (heap s r) + shift)%vec) members
                         (show_animated _ s) r), Hr. }
  split; [| split; [| split]].
  - unfold succeeds. rewrite E. reflexivity.
  - exact Hin.
  - intros r Hr. unfold s', exec. rewrite E. cbn [snd log heap].
    apply (move_all_heap (fun r => (center (heap s r) + shift)%vec) members
                         (show_animated _ s) r), Hr.
  - rewrite (map_ext_in (heap s') (fun r => move_to (center (heap s r) + shift)
                                                    (heap s r))) by exact Hin.
    rewrite <- (map_map (heap s) (fun n => move_to (center n + shift) n)).
    rewrite group_center_shift.
    + unfold shift. apply vec_eq; simpl; ring.
    + intros H. apply Hne. destruct members; [reflexivity | discriminate].
Qed.

Lemma group_move_centres_witness :
  group_center
    (map (heap (exec (a <- group_animate_move_to nodes ORIGIN ;; play [a] None)
                     scene_with_boxes))
         nodes)
  = ORIGIN.
Proof.
  refine (proj2 (proj2 (proj2
            (group_move_centres nodes ORIGIN scene_with_boxes _)))).
  discriminate.
Defined.

(** The transition of one box to a given rectangle and text. *)
Definition recolour (r : ref) (rt : RoundedRectangle) (tt : Text) : Animation :=
  AnimationGroup [RectTo r rt; TextTo r tt].

Definition recoloured (rt : RoundedRectangle) (tt : Text) (n : NodeBox)
  : NodeBox :=
  with_text tt (with_rect rt n).

Lemma commit_recolour_heap (r : ref) (rt : RoundedRectangle) (tt : Text)
      (s : Scene) (n : ref) :
  heap (commit (recolour r rt tt) s) n
  = if Nat.eqb n r then recoloured rt tt (heap s r) else heap s n.
Proof.
  unfold recolour, recoloured. cbn [commit update_node heap show_animated].
  rewrite upd_same. unfold upd.
  destruct (Nat.eqb n r); reflexivity.
Qed.

Lemma existsb_eqb_In (n : ref) (l : list ref) :
  existsb (Nat.eqb n) l = true <-> In n l.
Proof.
  rewrite existsb_exists. split.
  - intros [x [Hx E]]. apply Nat.eqb_eq in E. subst. assumption.
  - intros H. exists n. split; [assumption | apply Nat.eqb_refl].
Qed.

(** What [add_missing] leaves on display. *)
Lemma add_missing_In (ids : list nat) :
  forall (l : list nat) (i : nat),
    In i (add_missing ids l) <-> In i l \/ In i ids.
Proof.
  induction ids as [| x ids IH]; intros l i; cbn [add_missing fold_left].
  - split; [auto | intros [H | []]; exact H].
  - fold (add_missing ids (if existsb (Nat.eqb x) l then l else (l ++ [x])%list)).
    rewrite IH. destruct (existsb (Nat.eqb x) l) eqn:E.
    + apply existsb_eqb_In in E. cbn [In]. split.
      * intros [H | H]; auto.
      * intros [H | [<- | H]]; auto.
    + rewrite in_app_iff. cbn [In]. tauto.
Qed.

Lemma add_missing_present (ids : list nat) :
  forall l : list nat,
    (forall i, In i ids -> In i l) -> add_missing ids l = l.
Proof.
  induction ids as [| x ids IH]; intros l H; cbn [add_missing fold_left].
  - reflexivity.
  - assert (E : existsb (Nat.eqb x) l = true).
    { apply existsb_eqb_In, H. left. reflexivity. }
    rewrite E. apply IH. intros i Hi. apply H. right. exact Hi.
Qed.

Lemma commit_recolour_frame (r : ref) (rt : RoundedRectangle) (tt : Text)
      (s : Scene) :
  next_id (commit (recolour r rt tt) s) = next_id s
  /\ (forall i : nat,
         In i (mobjects (commit (recolour r rt tt) s))
         <-> In i (mobjects s) \/ i = r)
  /\ (In r (mobjects s) -> mobjects (commit (recolour r rt tt) s) = mobjects s).
Proof.
  unfold recolour.
  cbn [commit update_node show_animated next_id mobjects heap timeline].
  split; [reflexivity | split].
  - intros i. rewrite !add_missing_In. cbn [In]. split.
    + intros [[H | [<- | []]] | [<- | []]]; auto.
    + intros [H | ->]; auto.
  - intros Hr.
    assert (H1 : forall i, In i [r] -> In i (mobjects s))
      by (intros i [<- | []]; exact Hr).
    rewrite (add_missing_present [r] (mobjects s) H1).
    apply add_missing_present, H1.
Qed.

(** Committing the transitions of a list of boxes, each to a rectangle and
    a text computed from its reference. *)
Lemma commit_recolours (fr : ref -> RoundedRectangle) (ft : ref -> Text)
      (l : list ref) :
  forall (s : Scene),
    (forall n : ref,
        heap (commit_all (map (fun r => recolour r (fr r) (ft r)) l) s) n
        = if existsb (Nat.eqb n) l
          then recoloured (fr n) (ft n) (heap s n)
          else heap s n)
    /\ next_id (commit_all (map (fun r => recolour r (fr r) (ft r)) l) s)
       = next_id s
    /\ (forall i : nat,
           In i (mobjects (commit_all (map (fun r => recolour r (fr r) (ft r)) l)
                                      s))
           <-> In i (mobjects s) \/ In i l)
    /\ ((forall i, In i l -> In i (mobjects s)) ->
        mobjects (commit_all (map (fun r => recolour r (fr r) (ft r)) l) s)
        = mobjects s).
Proof.
  induction l as [| r l IH]; intros s.
  - repeat split; auto. intros [H | []]; exact H.
  - cbn [map]. rewrite commit_all_cons.
    destruct (IH (commit (recolour r (fr r) (ft r)) s)) as [Hh [Hn [Hm He]]].
    destruct (commit_recolour_frame r (fr r) (ft r) s) as [Fn [Fm Fe]].
    split; [| split; [| split]].
    + intros n. rewrite Hh, commit_recolour_heap. cbn [existsb].
      destruct (Nat.eqb n r) eqn:E.
      * apply Nat.eqb_eq in E. subst n. cbn [orb].
        destruct (existsb (Nat.eqb r) l); reflexivity.
      * cbn [orb]. reflexivity.
    + rewrite Hn. exact Fn.
    + intros i. rewrite Hm, Fm. cbn [In]. split.
      * intros [[H | ->] | H]; auto.
      * intros [H | [<- | H]]; auto.
    + intros Hl. rewrite He.
      * apply Fe, Hl. left. reflexivity.
      * intros i Hi. rewrite Fe by (apply Hl; left; reflexivity).
        apply Hl. right. exact Hi.
Qed.

Lemma mapM_deactivate_next_id (l : list ref) :
  forall s : Scene, next_id (exec (mapM deactivate l) s) = next_id s.
Proof.
  induction l as [| r l IH]; intros s.
  - reflexivity.
  - unfold exec. cbn [mapM]. unfold bind at 1. rewrite deactivate_run.
    set (s1 := update_node r _ (update_node r _ s)).
    unfold bind at 1. specialize (IH s1). unfold exec in IH.
    destruct (mapM deactivate l s1) as [[ys | e] s2]; simpl in IH |- *;
      rewrite IH; reflexivity.
Qed.

Lemma spotlight_display (s : Scene) (boxes : list ref) (active : ref) :
  (forall i : nat,
      In i (mobjects (exec (spotlight boxes active) s))
      <-> In i (mobjects s) \/ i = active \/ In i boxes)
  /\ ((forall i, i = active \/ In i boxes -> In i (mobjects s)) ->
      mobjects (exec (spotlight boxes active) s) = mobjects s)
  /\ next_id (exec (spotlight boxes active) s) = next_id s.
Proof.
  unfold exec, spotlight, bind. rewrite activate_run.
  set (s1 := update_node active _ (update_node active _ s)).
  set (others := filter (fun n => negb (Nat.eqb n active)) boxes).
  pose proof (mapM_deactivate_next_id others s1) as N2. unfold exec in N2.
  destruct (mapM_deactivate_run others s1) as [s2 [E [_ [M2 _]]]].
  rewrite E in N2. rewrite E. cbn [snd] in N2.
  cbn [snd play log render heap mobjects next_id]. rewrite commit_all_cons.
  fold (recolour active (active_rect (rect (heap s active)))
                 (text_set_color WHITE (text (heap s active)))).
  set (a := recolour active _ _).
  change (map (deactivation (heap s1)) others)
    with (map (fun r => recolour r (inactive_rect (rect (heap s1 r)))
                                 (text_set_color WHITE (text (heap s1 r))))
              others).
  destruct (commit_recolours
              (fun r => inactive_rect (rect (heap s1 r)))
              (fun r => text_set_color WHITE (text (heap s1 r)))
              others (commit a s2)) as [_ [Hn [Hm He]]].
  destruct (commit_recolour_frame active
              (active_rect (rect (heap s active)))
              (text_set_color WHITE (text (heap s active))) s2)
    as [Fn [Fm Fe]].
  fold a in Fn, Fm, Fe.
  assert (M1 : mobjects s2 = mobjects s) by (rewrite M2; reflexivity).
  assert (Ho : forall i, i = active \/ In i others <-> i = active \/ In i boxes).
  { intros i. unfold others. rewrite filter_In. split.
    - intros [H | [H _]]; auto.
    - intros [H | H]; auto.
      destruct (Nat.eq_dec i active) as [-> | Hne]; [auto |].
      right. split; [exact H |]. apply Nat.eqb_neq in Hne. rewrite Hne.
      reflexivity. }
  split; [| split].
  - intros i. rewrite Hm, Fm, M1. rewrite <- (Ho i). tauto.
  - intros Hd. rewrite He.
    + rewrite Fe, M1; [reflexivity |]. rewrite M1. apply Hd. auto.
    + intros i Hi. rewrite Fe, M1 by (rewrite M1; apply Hd; auto).
      apply Hd. apply Ho. auto.
  - rewrite Hn, Fn. exact N2.
Qed.

(** What the spotlight play does to the boxes. *)
Lemma spotlight_heap (s : Scene) (boxes : list ref) (active : ref) (r : ref) :
  rect (heap (exec (spotlight boxes active) s) r)
  = (if Nat.eqb r active then active_rect (rect (heap s r))
     else if existsb (Nat.eqb r) boxes
          then inactive_rect (rect (heap s r))
          else rect (heap s r))
  /\ text (heap (exec (spotlight boxes active) s) r)
     = (if Nat.eqb r active || existsb (Nat.eqb r) boxes
        then text_set_color WHITE (text (heap s r))
        else text (heap s r))
  /\ center (heap (exec (spotlight boxes active) s) r) = center (heap s r)
  /\ label (heap (exec (spotlight boxes active) s) r) = label (heap s r).
Proof.
  revert r.
  unfold exec, spotlight, bind. rewrite activate_run.
  set (s1 := update_node active _ (update_node active _ s)).
  assert (U1 : untouched s s1) by apply set_targets_untouched.
  set (others := filter (fun n => negb (Nat.eqb n active)) boxes).
  destruct (mapM_deactivate_run others s1) as [s2 [E U2]].
  rewrite E.
  cbn [snd play log render heap mobjects next_id]. rewrite commit_all_cons.
  fold (recolour active (active_rect (rect (heap s active)))
                 (text_set_color WHITE (text (heap s active)))).
  set (a := recolour active _ _).
  change (map (deactivation (heap s1)) others)
    with (map (fun r => recolour r (inactive_rect (rect (heap s1 r)))
                                 (text_set_color WHITE (text (heap s1 r))))
              others).
  destruct (commit_recolours
              (fun r => inactive_rect (rect (heap s1 r)))
              (fun r => text_set_color WHITE (text (heap s1 r)))
              others (commit a s2)) as [Hh _].
  destruct U2 as [F2 [M2 _]]. destruct U1 as [F1 [M1 _]].
  intros r. rewrite Hh. unfold a. rewrite commit_recolour_heap.
  destruct (F1 r) as [L1 [C1 [R1 T1]]].
  destruct (F2 r) as [L2 [C2 [R2 T2]]].
  destruct (F2 active) as [L2a [C2a [R2a T2a]]].
  destruct (Nat.eqb r active) eqn:Ea.
  - apply Nat.eqb_eq in Ea. subst r.
    assert (Ho : existsb (Nat.eqb active) others = false).
    { apply not_true_is_false. intros H. apply existsb_eqb_In in H.
      unfold others in H. apply filter_In in H. destruct H as [_ H].
      rewrite Nat.eqb_refl in H. discriminate. }
    rewrite Ho. cbn [orb]. unfold recoloured.
    cbn [rect text center label with_text with_rect].
    repeat split; congruence.
  - destruct (existsb (Nat.eqb r) boxes) eqn:Eb.
    + assert (Ho : existsb (Nat.eqb r) others = true).
      { apply existsb_eqb_In. unfold others. apply filter_In.
        split; [apply existsb_eqb_In; assumption | rewrite Ea; reflexivity]. }
      rewrite Ho. cbn [orb]. unfold recoloured.
      cbn [rect text center label with_text with_rect].
      repeat split; congruence.
    + assert (Ho : existsb (Nat.eqb r) others = false).
      { apply not_true_is_false. intros H. apply existsb_eqb_In in H.
        unfold others in H. apply filter_In in H. destruct H as [H _].
        apply existsb_eqb_In in H. congruence. }
      rewrite Ho. cbn [orb]. repeat split; congruence.
Qed.


(** X6.  The spotlight play recolours and creates nothing.  Whatever the
    scene and the list of boxes: the active box gets the active rectangle,
    every other listed box the inactive rectangle, both the white label;
    a box that is neither active nor listed keeps its rectangle and text;
    every box keeps its position and label.  On display afterwards are the
    objects that were on display and the spotlit boxes (a box that is
    animated while it is not in the scene is added to it): nothing is
    removed, nothing else is added, and no object is created. *)
Theorem spotlight_recolours_only (s : Scene) (boxes : list ref) (active : ref) :
  let s' := exec (spotlight boxes active) s in
  (forall r : ref,
      rect (heap s' r)
      = (if Nat.eqb r active then active_rect (rect (heap s r))
         else if existsb (Nat.eqb r) boxes
              then inactive_rect (rect (heap s r))
              else rect (heap s r))
      /\ text (heap s' r)
         = (if Nat.eqb r active || existsb (Nat.eqb r) boxes
            then text_set_color WHITE (text (heap s r))
            else text (heap s r))
      /\ center (heap s' r) = center (heap s r)
      /\ label (heap s' r) = label (heap s r))
  /\ (forall i : nat,
         In i (mobjects s') <-> In i (mobjects s) \/ i = active \/ In i boxes)
  /\ next_id s' = next_id s.
Proof.
  cbv zeta.
  destruct (spotlight_display s boxes active) as [D [_ N]].
  split; [| split; assumption].
  intros r. apply spotlight_heap.
Qed.

Lemma transition_fields (m : M Animation) (self : ref)
      (rt : RoundedRectangle) (tt : Text) (s s1 : Scene) :
  m s = (Ok (recolour self rt tt), s1) ->
  untouched s s1 ->
  rect (heap (exec (transition m) s) self) = rt
  /\ text (heap (exec (transition m) s) self) = tt
  /\ center (heap (exec (transition m) s) self) = center (heap s self)
  /\ label (heap (exec (transition m) s) self) = label (heap s self).
Proof.
  intros E [F _]. destruct (F self) as [L [C _]].
  unfold exec, transition, bind. rewrite E.
  cbn [snd play log render heap]. unfold commit_all. cbn [fold_left].
  rewrite commit_recolour_heap, Nat.eqb_refl.
  unfold recoloured. cbn [rect text center label with_text with_rect].
  repeat split; assumption.
Qed.

(** X7.  A box in the inactive look of the constructor (grey fill of
    opacity 0.4, grey border, white label) is given back exactly that look by
    [activate()] followed by [deactivate()], both played: rectangle, text,
    position and label are what they were. *)
Theorem activate_deactivate_restores (s : Scene) (self : ref) :
  fill_color (rect (heap s self)) = NODE_COLOR_INACTIVE ->
  fill_opacity (rect (heap s self)) = 0.4 ->
  stroke_color (rect (heap s self)) = NODE_COLOR_INACTIVE ->
  text_color (text (heap s self)) = WHITE ->
  rect (heap (exec (transition (deactivate self))
                   (exec (transition (activate self)) s)) self)
  = rect (heap s self)
  /\ text (heap (exec (transition (deactivate self))
                      (exec (transition (activate self)) s)) self)
     = text (heap s self)
  /\ center (heap (exec (transition (deactivate self))
                        (exec (transition (activate self)) s)) self)
     = center (heap s self)
  /\ label (heap (exec (transition (deactivate self))
                       (exec (transition (activate self)) s)) self)
     = label (heap s self).
Proof.
  intros Hf Ho Hs Ht.
  destruct (transition_fields (activate self) self _ _ s _
              (activate_run self s) (set_targets_untouched _ _ _ _))
    as [R1 [T1 [C1 L1]]].
  set (s1 := exec (transition (activate self)) s) in * .
  destruct (transition_fields (deactivate self) self _ _ s1 _
              (deactivate_run self s1) (set_targets_untouched _ _ _ _))
    as [R2 [T2 [C2 L2]]].
  rewrite R2, T2, C2, L2, R1, T1, C1, L1.
  destruct (heap s self) as [lbl c [cr w h fc fo sc] [str fs tc] rt tt].
  cbn in Hf, Ho, Hs, Ht |- * . subst.
  repeat split.
Qed.

Lemma activate_deactivate_restores_witness :
  rect (heap (exec (transition (deactivate P1))
                   (exec (transition (activate P1)) scene_with_boxes)) P1)
  = rect (heap scene_with_boxes P1).
Proof.
  refine (proj1 (activate_deactivate_restores scene_with_boxes P1 _ _ _ _));
    reflexivity.
Defined.

(** ** Which steps render, and where stage 2 can raise *)

(** [emits n P m]: from every scene, [m] returns a value satisfying [P] and
    appends exactly [n] directives to the timeline. *)
Definition emits {A : Type} (n : nat) (P : A -> Prop) (m : M A) : Prop :=
  forall s : Scene, exists (a : A) (s' : Scene) (l : list Directive),
      m s = (Ok a, s')
      /\ timeline s' = (timeline s ++ l)%list
      /\ List.length l = n
      /\ P a.

(** [raises_after e n m]: from every scene, [m] raises [e] after appending
    exactly [n] directives. *)
Definition raises_after {A : Type} (e : exn) (n : nat) (m : M A) : Prop :=
  forall s : Scene, exists (s' : Scene) (l : list Directive),
      m s = (Raise e, s')
      /\ timeline s' = (timeline s ++ l)%list
      /\ List.length l = n.

Definition anything {A : Type} (a : A) : Prop := True.

Lemma emits_ret {A : Type} (P : A -> Prop) (a : A) : P a -> emits 0 P (ret a).
Proof.
  intros H s. exists a, s, []. rewrite app_nil_r. repeat split. exact H.
Qed.

Lemma emits_weaken {A : Type} (n : nat) (P Q : A -> Prop) (m : M A) :
  emits n P m -> (forall a, P a -> Q a) -> emits n Q m.
Proof.
  intros H HPQ s. destruct (H s) as [a [s' [l [E [T [L Pa]]]]]].
  exists a, s', l. repeat split; auto.
Qed.

Lemma emits_bind {A B : Type} (n n1 n2 : nat) (P : A -> Prop) (Q : B -> Prop)
      (m : M A) (k : A -> M B) :
  emits n1 P m ->
  (forall a, P a -> emits n2 Q (k a)) ->
  n = (n1 + n2)%nat ->
  emits n Q (bind m k).
Proof.
  intros Hm Hk -> s. destruct (Hm s) as [a [s1 [l1 [E1 [T1 [L1 Pa]]]]]].
  destruct (Hk a Pa s1) as [b [s2 [l2 [E2 [T2 [L2 Qb]]]]]].
  exists b, s2, (l1 ++ l2)%list. unfold bind. rewrite E1.
  split; [exact E2 |]. split; [| split].
  - rewrite T2, T1. symmetry. apply app_assoc.
  - rewrite length_app. congruence.
  - exact Qb.
Qed.

Lemma raises_after_bind {A B : Type} (e : exn) (n n1 n2 : nat)
      (P : A -> Prop) (m : M A) (k : A -> M B) :
  emits n1 P m ->
  (forall a, P a -> raises_after e n2 (k a)) ->
  n = (n1 + n2)%nat ->
  raises_after e n (bind m k).
Proof.
  intros Hm Hk -> s. destruct (Hm s) as [a [s1 [l1 [E1 [T1 [L1 Pa]]]]]].
  destruct (Hk a Pa s1) as [s2 [l2 [E2 [T2 L2]]]].
  exists s2, (l1 ++ l2)%list. unfold bind. rewrite E1.
  split; [exact E2 |]. split.
  - rewrite T2, T1. symmetry. apply app_assoc.
  - rewrite length_app. congruence.
Qed.

Lemma raises_after_here {A B : Type} (e : exn) (n : nat)
      (m : M A) (k : A -> M B) :
  raises_after e n m -> raises_after e n (bind m k).
Proof.
  intros Hm s. destruct (Hm s) as [s1 [l1 [E1 [T1 L1]]]].
  exists s1, l1. unfold bind. rewrite E1. repeat split; assumption.
Qed.

Lemma emits_mapM {A B : Type} (f : A -> M B) (l : list A) :
  (forall x, emits 0 anything (f x)) ->
  emits 0 (fun ys => List.length ys = List.length l) (mapM f l).
Proof.
  intros Hf. induction l as [| x l IH]; simpl.
  - apply emits_ret. reflexivity.
  - eapply emits_bind; [apply Hf | intros y _ | reflexivity].
    eapply emits_bind; [apply IH | intros ys Hys | reflexivity].
    apply emits_ret. simpl. congruence.
Qed.

Lemma emits_new_id : emits 0 anything new_id.
Proof.
  intros s. eexists _, _, []. rewrite app_nil_r. repeat split.
Qed.

Lemma emits_deref (r : ref) : emits 0 anything (deref r).
Proof.
  intros s. eexists _, _, []. rewrite app_nil_r. repeat split.
Qed.

Lemma emits_modify (r : ref) (f : NodeBox -> NodeBox) :
  emits 0 anything (modify r f).
Proof.
  intros s. eexists _, _, []. rewrite app_nil_r. repeat split.
Qed.

Lemma emits_play (anims : list Animation) (run_time : option R) :
  emits 1 anything (play anims run_time).
Proof.
  intros s. eexists tt, _, [Play anims run_time].
  split; [reflexivity |]. split; [| split; reflexivity].
  apply (play_timeline anims run_time s).
Qed.

Lemma emits_wait (duration : R) : emits 1 anything (wait duration).
Proof.
  intros s. eexists tt, _, [Wait duration]. repeat split.
Qed.

Lemma emits_getitem {A : Type} (l : list A) (i : nat) (x : A) :
  nth_error l i = Some x -> emits 0 (eq x) (getitem l i).
Proof.
  intros H. unfold getitem. rewrite H. apply emits_ret. reflexivity.
Qed.

Lemma raises_getitem {A : Type} (l : list A) (i : nat) :
  nth_error l i = None -> raises_after IndexError 0 (getitem l i).
Proof.
  intros H s. unfold getitem. rewrite H. exists s, [].
  rewrite app_nil_r. repeat split.
Qed.

Lemma emits_activate (self : ref) : emits 0 anything (activate self).
Proof.
  unfold activate, rect_animate, text_animate.
  repeat first [ eapply (emits_bind 0 0 0); [| intros ? _ | reflexivity ]
               | apply emits_deref | apply emits_modify
               | apply (emits_ret anything); exact I
               | progress cbv zeta ].
Qed.

Lemma emits_deactivate (self : ref) : emits 0 anything (deactivate self).
Proof.
  unfold deactivate, rect_animate, text_animate.
  repeat first [ eapply (emits_bind 0 0 0); [| intros ? _ | reflexivity ]
               | apply emits_deref | apply emits_modify
               | apply (emits_ret anything); exact I
               | progress cbv zeta ].
Qed.

(** The spotlight is one play. *)
Lemma emits_spotlight (boxes : list ref) (active : ref) :
  emits 1 anything (spotlight boxes active).
Proof.
  unfold spotlight.
  eapply emits_bind; [apply emits_activate | intros a _ | reflexivity].
  eapply emits_bind;
    [apply emits_mapM; intros; apply emits_deactivate | intros ds _
     | reflexivity].
  apply emits_play.
Qed.

(** A new group has one submobject per element and renders nothing. *)
Lemma emits_new_group {X : Type} (wrap : nat -> X -> Mobject) (xs : list X) :
  emits 0 (fun g => List.length (submobjects g) = List.length xs)
        (new_group wrap xs).
Proof.
  unfold new_group.
  eapply (emits_bind 0 0 0); [| intros subs Hsubs | reflexivity].
  - apply emits_mapM. intros x.
    eapply emits_bind; [apply emits_new_id | intros i _ | reflexivity].
    apply emits_ret. exact I.
  - eapply emits_bind; [apply emits_new_id | intros g _ | reflexivity].
    apply emits_ret. exact Hsubs.
Qed.

Lemma emits_shares (from_node : NodeBox) (peers : list ref) :
  emits 0 (fun shares => List.length shares = List.length peers)
        (mapM (fun peer => to_node <- deref peer ;;
                           ret (share_with_label from_node to_node)) peers).
Proof.
  apply emits_mapM. intros peer.
  eapply (emits_bind 0 0 0); [apply emits_deref | intros n _ | reflexivity].
  apply (emits_ret anything). exact I.
Qed.

(** The end of a turn of stage 2, once the two arrows have been fetched. *)
Lemma emits_stage2_finish (arrows labels arrow0 arrow1 : Mobject)
      (peers : list ref) :
  emits 5 anything
        (play [GrowArrow arrow0; GrowArrow arrow1] (Some 1.0) ;;
         play [FadeIn labels None None] None ;;
         ticks <- new_group (fun i '(t, placed) => MText i t placed)
                            (map tick_at peers) ;;
         play [FadeIn ticks None (Some 0.3)] None ;;
         wait 0.5 ;;
         play [FadeOut arrows; FadeOut labels; FadeOut ticks] None).
Proof.
  eapply (emits_bind 5 1 4); [apply emits_play | intros _ _ | reflexivity].
  eapply (emits_bind 4 1 3); [apply emits_play | intros _ _ | reflexivity].
  eapply (emits_bind 3 0 3); [apply emits_new_group | intros ticks _ | reflexivity].
  eapply (emits_bind 3 1 2); [apply emits_play | intros _ _ | reflexivity].
  eapply (emits_bind 2 1 1); [apply emits_wait | intros _ _ | reflexivity].
  apply emits_play.
Qed.

Lemma stage2_turn_two_peers (boxes : list ref) (active : ref)
      (peers : list ref) :
  (2 <= List.length peers)%nat ->
  emits 6 anything (stage2_turn boxes (active, peers)).
Proof.
  intros Hlen. unfold stage2_turn.
  eapply (emits_bind 6 1 5); [apply emits_spotlight | intros _ _ | reflexivity].
  eapply (emits_bind 5 0 5); [apply emits_deref | intros from_node _ | reflexivity].
  eapply (emits_bind 5 0 5);
    [apply emits_shares | intros shares Hshares | reflexivity].
  eapply (emits_bind 5 0 5);
    [apply emits_new_group | intros arrows Harrows | reflexivity].
  eapply (emits_bind 5 0 5);
    [apply emits_new_group | intros labels _ | reflexivity].
  rewrite length_map, Hshares in Harrows.
  destruct (submobjects arrows) as [| x0 [| x1 rest]] eqn:Esubs;
    simpl in Harrows; try lia.
  eapply (emits_bind 5 0 5);
    [apply (emits_getitem _ 0 x0); reflexivity | intros arrow0 _ | reflexivity].
  eapply (emits_bind 5 0 5);
    [apply (emits_getitem _ 1 x1); reflexivity | intros arrow1 _ | reflexivity].
  apply emits_stage2_finish.
Qed.

Lemma stage2_turn_few_peers (boxes : list ref) (active : ref)
      (peers : list ref) :
  (List.length peers < 2)%nat ->
  raises_after IndexError 1 (stage2_turn boxes (active, peers)).
Proof.
  intros Hlen. unfold stage2_turn.
  eapply (raises_after_bind _ 1 1 0);
    [apply emits_spotlight | intros _ _ | reflexivity].
  eapply (raises_after_bind _ 0 0 0);
    [apply emits_deref | intros from_node _ | reflexivity].
  eapply (raises_after_bind _ 0 0 0);
    [apply emits_shares | intros shares Hshares | reflexivity].
  eapply (raises_after_bind _ 0 0 0);
    [apply emits_new_group | intros arrows Harrows | reflexivity].
  eapply (raises_after_bind _ 0 0 0);
    [apply emits_new_group | intros labels _ | reflexivity].
  rewrite length_map, Hshares in Harrows.
  destruct (submobjects arrows) as [| x0 [| x1 rest]] eqn:Esubs;
    simpl in Harrows; try lia.
  - apply raises_after_here. apply raises_getitem. reflexivity.
  - eapply (raises_after_bind _ 0 0 0);
      [apply (emits_getitem _ 0 x0); reflexivity | intros arrow0 _
       | reflexivity].
    apply raises_after_here. apply raises_getitem. reflexivity.
Qed.

Lemma emitted_of_append {A : Type} (m : M A) (s : Scene) (l : list Directive) :
  timeline (exec m s) = (timeline s ++ l)%list -> emitted m s = l.
Proof.
  intros E. unfold emitted. rewrite E.
  rewrite skipn_app, skipn_all, Nat.sub_diag. reflexivity.
Qed.

(** X8.  A turn of stage 2 needs two peers.  With two or more peers it
    returns normally after six directives (the spotlight, the two grown
    arrows, the labels, the ticks, a wait and the fade-out); with fewer it
    raises [IndexError] when it fetches [arrows[0]] or [arrows[1]], after the
    spotlight, and only it, has been rendered.  This holds in every scene and
    for every list of boxes. *)
Theorem stage2_turn_needs_two_peers (boxes : list ref) (active : ref)
        (peers : list ref) (s : Scene) :
  fst (stage2_turn boxes (active, peers) s)
  = (if (2 <=? List.length peers)%nat then Ok tt else Raise IndexError)
  /\ List.length (emitted (stage2_turn boxes (active, peers)) s)
     = (if (2 <=? List.length peers)%nat then 6 else 1)%nat.
Proof.
  destruct (2 <=? List.length peers)%nat eqn:E.
  - apply Nat.leb_le in E.
    destruct (stage2_turn_two_peers boxes active peers E s)
      as [[] [s' [l [Er [T [L _]]]]]].
    rewrite (emitted_of_append _ s l) by (unfold exec; rewrite Er; exact T).
    rewrite Er. split; [reflexivity | exact L].
  - apply Nat.leb_gt in E.
    destruct (stage2_turn_few_peers boxes active peers E s)
      as [s' [l [Er [T L]]]].
    rewrite (emitted_of_append _ s l) by (unfold exec; rewrite Er; exact T).
    rewrite Er. split; [reflexivity | exact L].
Qed.

(** ** What stays on display *)

(** Every displayed identity has been handed out. *)
Definition fresh (s : Scene) : Prop :=
  forall i : nat, In i (mobjects s) -> (i < next_id s)%nat.

Definition add_ids (ids l : list nat) : list nat :=
  (remove_ids ids l ++ ids)%list.

Lemma remove_ids_app (ids l1 l2 : list nat) :
  remove_ids ids (l1 ++ l2) = (remove_ids ids l1 ++ remove_ids ids l2)%list.
Proof. apply filter_app. Qed.

Lemma remove_ids_disjoint (ids l : list nat) :
  (forall i, In i l -> ~ In i ids) -> remove_ids ids l = l.
Proof.
  intros H. induction l as [| x l IH]; simpl; [reflexivity |].
  assert (E : existsb (Nat.eqb x) ids = false).
  { apply not_true_is_false. intros Hx. apply existsb_eqb_In in Hx.
    apply (H x); [left; reflexivity | assumption]. }
  rewrite E. simpl. f_equal. apply IH. intros i Hi. apply H. right. assumption.
Qed.

Lemma remove_ids_all (ids l : list nat) :
  (forall i, In i l -> In i ids) -> remove_ids ids l = [].
Proof.
  intros H. induction l as [| x l IH]; simpl; [reflexivity |].
  assert (E : existsb (Nat.eqb x) ids = true).
  { apply existsb_eqb_In, H. left. reflexivity. }
  rewrite E. simpl. apply IH. intros i Hi. apply H. right. assumption.
Qed.

Lemma remove_ids_twice (ids1 ids2 l : list nat) :
  remove_ids ids1 (remove_ids ids2 l) = remove_ids (ids2 ++ ids1) l.
Proof.
  induction l as [| x l IH]; simpl; [reflexivity |].
  rewrite existsb_app.
  destruct (existsb (Nat.eqb x) ids2); simpl.
  - exact IH.
  - destruct (existsb (Nat.eqb x) ids1); simpl; [| f_equal]; exact IH.
Qed.

Lemma remove_ids_subset (big ids l : list nat) :
  (forall i, In i ids -> In i big) ->
  remove_ids big (remove_ids ids l) = remove_ids big l.
Proof.
  intros H. induction l as [| x l IH]; simpl; [reflexivity |].
  destruct (existsb (Nat.eqb x) ids) eqn:E; simpl.
  - apply existsb_eqb_In in E. apply H in E. apply existsb_eqb_In in E.
    rewrite E. simpl. exact IH.
  - destruct (existsb (Nat.eqb x) big); simpl; [| f_equal]; exact IH.
Qed.

(** Removing a set of objects undoes every earlier addition of some of
    them. *)
Lemma remove_after_add (big ids l : list nat) :
  (forall i, In i ids -> In i big) ->
  remove_ids big (add_ids ids l) = remove_ids big l.
Proof.
  intros H. unfold add_ids.
  rewrite remove_ids_app, remove_ids_subset, (remove_ids_all big ids) by assumption.
  apply app_nil_r.
Qed.

Lemma commit_next_id :
  forall (a : Animation) (s : Scene), next_id (commit a s) = next_id s.
Proof.
  fix IH 1. intros a. destruct a as [| | | | | | | targets | anims];
    intros s; try reflexivity.
  - cbn [commit].
    rewrite (proj1 (proj2 (move_fold_frame targets _))). reflexivity.
  - simpl. revert s.
    induction anims as [| a' l IHl]; intros s.
    + reflexivity.
    + rewrite IHl. apply IH.
Qed.

Lemma bind_ok {A B : Type} (m : M A) (k : A -> M B) (s s' : Scene) (a : A) :
  m s = (Ok a, s') -> bind m k s = k a s'.
Proof. intros E. unfold bind. rewrite E. reflexivity. Qed.

(** X9.  [brief] shows its text for two seconds and takes it away again:
    from a scene whose displayed objects have all been handed out, it
    renders exactly three directives (write the text, wait 2, fade it out),
    leaves the display and every box as they were, and creates one
    object. *)
Theorem brief_leaves_display (txt : string) (s : Scene) :
  fresh s ->
  emitted (brief txt) s
  = [Play [Write (MText (next_id s) (mkText txt 28 WHITE) (ToEdge DOWN 0.6))]
          None;
     Wait 2;
     Play [FadeOut (MText (next_id s) (mkText txt 28 WHITE) (ToEdge DOWN 0.6))]
          None]
  /\ mobjects (exec (brief txt) s) = mobjects s
  /\ next_id (exec (brief txt) s) = S (next_id s)
  /\ (forall r : ref, heap (exec (brief txt) s) r = heap s r)
  /\ fst (brief txt s) = Ok tt.
Proof.
  intros Hfresh.
  assert (Hnew : forall i, In i (mobjects s) -> ~ In i [next_id s]).
  { intros i Hi [<- | []]. apply Hfresh in Hi. lia. }
  split; [| split; [| split; [| split]]].
  - apply emitted_of_append. unfold exec. cbn. rewrite <- !app_assoc.
    reflexivity.
  - unfold exec. cbn [brief bind new_id play wait snd log render commit_all
                      fold_left commit mobjects next_id family add_mobjects
                      remove_mobjects show_animated].
    fold (add_ids [next_id s] (mobjects s)).
    rewrite (remove_after_add [next_id s] [next_id s]) by auto.
    apply remove_ids_disjoint, Hnew.
  - reflexivity.
  - reflexivity.
  - reflexivity.
Qed.

Lemma scene_after_setup_fresh : fresh scene_after_setup.
Proof.
  intros i Hi. vm_compute in Hi.
  repeat (destruct Hi as [<- | Hi]; [vm_compute; lia |]). destruct Hi.
Qed.

Lemma brief_leaves_display_witness :
  mobjects (exec (brief "Nodes exchange secret shares and verify them")
                 scene_after_setup)
  = mobjects scene_after_setup.
Proof.
  refine (proj1 (proj2 (brief_leaves_display _ scene_after_setup _))).
  exact scene_after_setup_fresh.
Defined.

(** ** Allocation of identities and the display across the stages *)

Definition allocated (k : nat) (s : Scene) : Scene :=
  mkScene (k + next_id s) (heap s) (mobjects s) (timeline s).

Lemma allocated_succ (k : nat) (s : Scene) :
  allocated k (allocated 1 s) = allocated (S k) s.
Proof.
  unfold allocated. cbn [next_id heap mobjects timeline].
  f_equal. lia.
Qed.

Lemma mapM_new_ids {X : Type} (wrap : nat -> X -> Mobject) (xs : list X) :
  (forall i x, family (wrap i x) = [i]) ->
  forall s : Scene,
  exists subs : list Mobject,
    mapM (fun x => bind new_id (fun i => ret (wrap i x))) xs s
    = (Ok subs, allocated (List.length xs) s)
    /\ flat_map family subs = seq (next_id s) (List.length xs)
    /\ List.length subs = List.length xs.
Proof.
  intros Hw. induction xs as [| x xs IH]; intros s.
  - exists []. split; [| split; reflexivity]. destruct s; reflexivity.
  - destruct (IH (allocated 1 s)) as [subs [E [F L]]].
    exists (wrap (next_id s) x :: subs). split; [| split].
    + cbn [mapM]. unfold bind at 1. unfold bind at 1.
      cbn [new_id ret].
      change (mkScene (S (next_id s)) (heap s) (mobjects s) (timeline s))
        with (allocated 1 s).
      unfold bind at 1. rewrite E. unfold ret.
      rewrite allocated_succ. reflexivity.
    + cbn [flat_map List.length seq]. rewrite Hw, F. reflexivity.
    + cbn [List.length]. rewrite L. reflexivity.
Qed.

Lemma new_group_run {X : Type} (wrap : nat -> X -> Mobject) (xs : list X) :
  (forall i x, family (wrap i x) = [i]) ->
  forall s : Scene,
  exists subs : list Mobject,
    new_group wrap xs s
    = (Ok (MVGroup (List.length xs + next_id s) subs AsCreated),
       allocated (S (List.length xs)) s)
    /\ family (MVGroup (List.length xs + next_id s) subs AsCreated)
       = (List.length xs + next_id s)%nat :: seq (next_id s) (List.length xs)
    /\ List.length subs = List.length xs.
Proof.
  intros Hw s. destruct (mapM_new_ids wrap xs Hw s) as [subs [E [F L]]].
  exists subs. split; [| split].
  - unfold new_group. rewrite (bind_ok _ _ _ _ _ E). reflexivity.
  - cbn [family]. rewrite F. reflexivity.
  - exact L.
Qed.

Lemma play_run (anims : list Animation) (rt : option R) (s : Scene) :
  play anims rt s = (Ok tt, log (Play anims rt) (render (Play anims rt) s)).
Proof. reflexivity. Qed.

Lemma wait_run (d : R) (s : Scene) : wait d s = (Ok tt, log (Wait d) s).
Proof. reflexivity. Qed.

Lemma in_group_ids (n k i : nat) :
  In i ((k + n)%nat :: seq n k) -> (n <= i)%nat.
Proof.
  intros [<- | H]; [lia |]. apply in_seq in H. lia.
Qed.

Lemma length_broadcast (from_node : NodeBox) (others : list NodeBox) :
  List.length (fst (broadcast_with_labels from_node others)) = List.length others
  /\ List.length (snd (broadcast_with_labels from_node others)) = List.length others.
Proof.
  rewrite broadcast_with_labels_eq. cbn [fst snd].
  rewrite !length_map, length_enumerate1. split; reflexivity.
Qed.

(** The objects [D] are on display. *)
Definition displayed (D : list nat) (s : Scene) : Prop :=
  forall i : nat, In i D -> In i (mobjects s).

Lemma displayed_spotlit (boxes : list ref) (active : ref) (s : Scene) :
  displayed (active :: boxes) s ->
  forall i, i = active \/ In i boxes -> In i (mobjects s).
Proof. intros H i [-> | Hi]; apply H; [left | right]; auto. Qed.

Lemma stage1_turn_display (boxes : list ref) (active : ref) (others : list ref)
      (s : Scene) :
  fresh s ->
  displayed (active :: boxes) s ->
  mobjects (exec (stage1_turn boxes (active, others)) s) = mobjects s
  /\ next_id (exec (stage1_turn boxes (active, others)) s)
     = (3 + 2 * List.length others + next_id s)%nat.
Proof.
  intros Hfresh Hshown. unfold exec, stage1_turn.
  destruct (never_raises_spotlight boxes active s) as [[] [s1 E1]].
  destruct (spotlight_display s boxes active) as [_ [M1 N1]].
  specialize (M1 (displayed_spotlit boxes active s Hshown)).
  unfold exec in M1, N1. rewrite E1 in M1, N1. cbn [snd] in M1, N1.
  rewrite (bind_ok _ _ _ _ _ E1).
  rewrite (bind_ok _ _ _ _ _ (eq_refl : new_id s1 = (Ok _, allocated 1 s1))).
  rewrite (bind_ok _ _ _ _ _ (play_run _ _ _)).
  set (s2 := log _ _).
  rewrite (bind_ok _ _ _ _ _ (eq_refl : deref active s2 = (Ok _, s2))).
  rewrite (bind_ok _ _ _ _ _ (mapM_deref others s2)).
  destruct (length_broadcast (heap s2 active) (map (heap s2) others)) as [LA LL].
  destruct (broadcast_with_labels (heap s2 active) (map (heap s2) others))
    as [arrows labels]. cbn [fst snd] in LA, LL. rewrite length_map in LA, LL.
  destruct (new_group_run MArrow arrows (fun _ _ => eq_refl) s2)
    as [subsA [EA [FA _]]].
  rewrite (bind_ok _ _ _ _ _ EA).
  destruct (new_group_run MTex labels (fun _ _ => eq_refl)
                          (allocated (S (List.length arrows)) s2))
    as [subsL [EL [FL _]]].
  rewrite (bind_ok _ _ _ _ _ EL).
  set (gA := MVGroup _ subsA _) in * .
  set (gL := MVGroup _ subsL _) in * .
  rewrite !(bind_ok _ _ _ _ _ (play_run _ _ _)).
  rewrite (bind_ok _ _ _ _ _ (wait_run _ _)).
  rewrite play_run. cbn [snd].
  split.
  - cbn [mobjects log render commit_all fold_left commit add_mobjects
         remove_mobjects allocated show_animated].
    assert (M2 : mobjects s2 = add_ids [next_id s1] (mobjects s1)) by reflexivity.
    assert (N2 : next_id s2 = S (next_id s1)) by reflexivity.
    change (family (MTex (next_id s1) _)) with [next_id s1].
    fold (add_ids (family gA) (mobjects s2)).
    fold (add_ids (family gL) (add_ids (family gA) (mobjects s2))).
    rewrite !remove_ids_twice.
    set (big := (family gA ++ family gL ++ [next_id s1])%list).
    assert (HA : forall i, In i (family gA) -> In i big).
    { intros i Hi. unfold big. rewrite !in_app_iff. auto. }
    assert (HL : forall i, In i (family gL) -> In i big).
    { intros i Hi. unfold big. rewrite !in_app_iff. auto. }
    assert (HP : forall i, In i [next_id s1] -> In i big).
    { intros i Hi. unfold big. rewrite !in_app_iff. auto. }
    rewrite (remove_after_add big (family gL)) by exact HL.
    rewrite (remove_after_add big (family gA)) by exact HA.
    rewrite M2, (remove_after_add big [next_id s1]) by exact HP.
    rewrite M1. apply remove_ids_disjoint.
    intros i Hi Hbig. apply Hfresh in Hi.
    unfold big in Hbig. rewrite !in_app_iff in Hbig.
    rewrite FA, FL in Hbig.
    destruct Hbig as [Hb | [Hb | [<- | []]]].
    + apply in_group_ids in Hb. rewrite N2 in Hb. lia.
    + apply in_group_ids in Hb. cbn [allocated next_id] in Hb.
      rewrite N2 in Hb. lia.
    + lia.
  - cbn [next_id log render commit_all fold_left commit add_mobjects
         remove_mobjects allocated show_animated].
    assert (N2 : next_id s2 = S (next_id s1)) by reflexivity.
    rewrite N2, N1, LA, LL. lia.
Qed.

(** A computation that, run while the objects [D] are on display, returns
    normally, keeps the display and only hands out new identities. *)
Definition tidy {A : Type} (D : list nat) (m : M A) : Prop :=
  forall s : Scene,
    fresh s ->
    displayed D s ->
    (exists a : A, fst (m s) = Ok a)
    /\ mobjects (exec m s) = mobjects s
    /\ (next_id s <= next_id (exec m s))%nat.

Lemma tidy_fresh {A : Type} (D : list nat) (m : M A) (s : Scene) :
  tidy D m -> fresh s -> displayed D s ->
  fresh (exec m s) /\ displayed D (exec m s).
Proof.
  intros Hm Hs Hd. destruct (Hm s Hs Hd) as [_ [M N]]. split.
  - intros i Hi. rewrite M in Hi. apply Hs in Hi. lia.
  - intros i Hi. rewrite M. apply Hd, Hi.
Qed.

Lemma tidy_ret {A : Type} (D : list nat) (a : A) : tidy D (ret a).
Proof.
  intros s _ _.
  split; [exists a; reflexivity | split; [reflexivity | apply le_n]].
Qed.

Lemma tidy_bind {A B : Type} (D : list nat) (m : M A) (k : A -> M B) :
  tidy D m -> (forall a, tidy D (k a)) -> tidy D (bind m k).
Proof.
  intros Hm Hk s Hs Hd. destruct (Hm s Hs Hd) as [[a Ea] [M N]].
  destruct (tidy_fresh D m s Hm Hs Hd) as [Hs1 Hd1].
  destruct (Hk a (exec m s) Hs1 Hd1) as [[b Eb] [M' N']].
  rewrite (exec_bind m k s a Ea).
  split; [| split].
  - exists b. unfold bind. rewrite (run_ok m s a Ea). exact Eb.
  - congruence.
  - lia.
Qed.

Lemma tidy_forM_Forall {A : Type} (D : list nat) (P : A -> Prop) (l : list A)
      (body : A -> M unit) :
  (forall x, P x -> tidy D (body x)) -> Forall P l -> tidy D (forM_ l body).
Proof.
  intros Hb Hl. induction Hl as [| x l Hx Hl IH]; simpl.
  - apply tidy_ret.
  - apply tidy_bind; [apply Hb, Hx | intros _; apply IH].
Qed.

Lemma tidy_stage1_turn (D : list nat) (boxes : list ref)
      (turn : ref * list ref) :
  (forall i, In i (fst turn :: boxes) -> In i D) ->
  tidy D (stage1_turn boxes turn).
Proof.
  destruct turn as [active others]. cbn [fst]. intros HD s Hs Hd.
  assert (Hshown : displayed (active :: boxes) s)
    by (intros i Hi; apply Hd, HD, Hi).
  destruct (stage1_turn_display boxes active others s Hs Hshown) as [M N].
  split; [| split].
  - destruct (never_raises_stage1_turn boxes (active, others) s) as [a [s' E]].
    exists a. rewrite E. reflexivity.
  - exact M.
  - lia.
Qed.


(** [closes D F m]: run while the objects [D] are on display, [m] returns
    normally and takes the objects [F], and nothing else, off the display. *)
Definition closes {A : Type} (D F : list nat) (m : M A) : Prop :=
  forall s : Scene,
    fresh s ->
    displayed D s ->
    (exists a : A, fst (m s) = Ok a)
    /\ mobjects (exec m s) = remove_ids F (mobjects s)
    /\ (next_id s <= next_id (exec m s))%nat.

Lemma closes_fade_out (D : list nat) (g : Mobject) :
  closes D (family g) (play [FadeOut g] None).
Proof.
  intros s _ _.
  split; [exists tt; reflexivity | split; [reflexivity | apply le_n]].
Qed.

Lemma closes_bind {A B : Type} (D F : list nat) (m : M A) (k : A -> M B) :
  tidy D m -> (forall a, closes D F (k a)) -> closes D F (bind m k).
Proof.
  intros Hm Hk s Hs Hd. destruct (Hm s Hs Hd) as [[a Ea] [M N]].
  destruct (tidy_fresh D m s Hm Hs Hd) as [Hs1 Hd1].
  destruct (Hk a (exec m s) Hs1 Hd1) as [[b Eb] [M' N']].
  rewrite (exec_bind m k s a Ea).
  split; [| split].
  - exists b. unfold bind. rewrite (run_ok m s a Ea). exact Eb.
  - congruence.
  - lia.
Qed.

Lemma tidy_wait (D : list nat) (d : R) : tidy D (wait d).
Proof.
  intros s _ _.
  split; [exists tt; reflexivity | split; [reflexivity | apply le_n]].
Qed.

Lemma brief_display (txt : string) (s : Scene) :
  fresh s ->
  mobjects (exec (brief txt) s) = mobjects s
  /\ next_id (exec (brief txt) s) = S (next_id s).
Proof.
  intros Hfresh. split; [| reflexivity].
  unfold exec. cbn [brief bind new_id play wait snd log render commit_all
                    fold_left commit mobjects next_id family add_mobjects
                    remove_mobjects].
  fold (add_ids [next_id s] (mobjects s)).
  rewrite (remove_after_add [next_id s] [next_id s]) by auto.
  apply remove_ids_disjoint.
  intros i Hi [<- | []]. apply Hfresh in Hi. lia.
Qed.

Lemma tidy_brief (D : list nat) (txt : string) : tidy D (brief txt).
Proof.
  intros s Hs _. destruct (brief_display txt s Hs) as [M N].
  split; [exists tt; reflexivity | split; [exact M | lia]].
Qed.

Lemma add_ids_keeps (ids l : list nat) (i : nat) :
  In i l -> In i (add_ids ids l).
Proof.
  intros Hi. unfold add_ids, remove_ids. apply in_app_iff.
  destruct (existsb (Nat.eqb i) ids) eqn:E.
  - right. apply existsb_eqb_In, E.
  - left. apply filter_In. split; [exact Hi | rewrite E; reflexivity].
Qed.

(** Showing an object whose identities are not on display, running a
    computation that takes exactly them off again. *)
Lemma shown_and_closed {A : Type} (D : list nat) (g : Mobject)
      (shift : option vec) (scale : option R) (k : M A) (s : Scene) :
  fresh s ->
  displayed D s ->
  (forall i, In i (family g) -> (i < next_id s)%nat /\ ~ In i (mobjects s)) ->
  closes D (family g) k ->
  (exists a : A, fst ((play [FadeIn g shift scale] None ;; k) s) = Ok a)
  /\ mobjects (exec (play [FadeIn g shift scale] None ;; k) s) = mobjects s
  /\ (next_id s <= next_id (exec (play [FadeIn g shift scale] None ;; k) s))%nat.
Proof.
  intros Hs Hd Hg Hk.
  set (s1 := exec (play [FadeIn g shift scale] None) s).
  assert (M1 : mobjects s1 = add_ids (family g) (mobjects s)) by reflexivity.
  assert (N1 : next_id s1 = next_id s) by reflexivity.
  assert (Hs1 : fresh s1).
  { intros i Hi. rewrite M1 in Hi. unfold add_ids in Hi.
    rewrite N1. apply in_app_iff in Hi. destruct Hi as [Hi | Hi].
    - apply filter_In in Hi. apply Hs, Hi.
    - apply Hg, Hi. }
  assert (Hd1 : displayed D s1).
  { intros i Hi. rewrite M1. apply add_ids_keeps, Hd, Hi. }
  destruct (Hk s1 Hs1 Hd1) as [[a Ea] [M N]].
  rewrite (exec_bind (play [FadeIn g shift scale] None) (fun _ => k) s tt eq_refl).
  fold s1.
  split; [| split].
  - exists a. unfold bind.
    rewrite (run_ok (play [FadeIn g shift scale] None) s tt eq_refl). exact Ea.
  - rewrite M, M1, (remove_after_add (family g) (family g)) by auto.
    apply remove_ids_disjoint. intros i Hi Hf. apply (Hg i Hf), Hi.
  - lia.
Qed.

Lemma titled_display (D : list nat) (title : string) (k : Mobject -> M unit)
      (s : Scene) :
  fresh s ->
  displayed D s ->
  (forall g, closes D (family g) (k g)) ->
  fst ((lbl <- stage_label title ;;
        play [FadeIn lbl (Some DOWN) None] None ;; k lbl) s) = Ok tt
  /\ mobjects (exec (lbl <- stage_label title ;;
                     play [FadeIn lbl (Some DOWN) None] None ;; k lbl) s)
     = mobjects s
  /\ (next_id s
      <= next_id (exec (lbl <- stage_label title ;;
                        play [FadeIn lbl (Some DOWN) None] None ;; k lbl) s))%nat.
Proof.
  intros Hs Hd Hk.
  set (g := MText (next_id s) (mkText title 38 WHITE) (ToEdge UP STAGE_LABEL_PAD)).
  assert (E : stage_label title s = (Ok g, allocated 1 s)) by reflexivity.
  assert (Hs1 : fresh (allocated 1 s)).
  { intros i Hi. apply Hs in Hi. cbn [allocated next_id]. lia. }
  assert (Hd1 : displayed D (allocated 1 s)) by exact Hd.
  destruct (shown_and_closed D g (Some DOWN) None (k g) (allocated 1 s) Hs1 Hd1)
    as [[[] Ea] [M N]].
  - intros i [<- | []]. split; [cbn [allocated next_id]; lia |].
    intros Hi. apply Hs in Hi. lia.
  - apply Hk.
  - unfold exec in * . rewrite (bind_ok _ _ _ _ _ E).
    split; [exact Ea | split; [exact M |]].
    cbn [allocated next_id] in N. lia.
Qed.

(** A script whose turns spotlight objects of [D] only. *)
Definition spotlights (D : list nat) (script : list (ref * list ref)) : Prop :=
  Forall (fun turn => In (fst turn) D) script.

Lemma tidy_stage1_loop (D : list nat) (boxes : list ref)
      (script : list (ref * list ref)) :
  (forall i, In i boxes -> In i D) ->
  spotlights D script ->
  tidy D (stage1_loop boxes script).
Proof.
  intros HD Hscript. unfold stage1_loop.
  apply (tidy_forM_Forall D (fun turn => In (fst turn) D)); [| exact Hscript].
  intros turn Ht. apply tidy_stage1_turn.
  intros i [<- | Hi]; [exact Ht | apply HD, Hi].
Qed.


Lemma mapM_shares (from_node : NodeBox) (peers : list ref) (s : Scene) :
  mapM (fun peer => to_node <- deref peer ;;
                    ret (share_with_label from_node to_node)) peers s
  = (Ok (map (fun peer => share_with_label from_node (heap s peer)) peers), s).
Proof.
  induction peers as [| p peers IH]; simpl.
  - reflexivity.
  - unfold bind at 1. unfold bind at 1. unfold deref at 1. unfold ret at 1.
    unfold bind at 1. rewrite IH. reflexivity.
Qed.

Lemma family_of_member (g x : Mobject) (i : nat) :
  In x (submobjects g) -> In i (family x) -> In i (family g).
Proof.
  destruct g as [| | | | id subs placed]; cbn [submobjects]; try (intros []).
  intros Hx Hi. cbn [family]. right. apply in_flat_map. exists x. auto.
Qed.

Lemma tick_family (i : nat) (x : Text * Placement) :
  family ((fun i '(t, placed) => MText i t placed) i x) = [i].
Proof. destruct x. reflexivity. Qed.

Lemma stage2_turn_display (boxes : list ref) (active : ref) (peers : list ref)
      (s : Scene) :
  fresh s ->
  displayed (active :: boxes) s ->
  (2 <= List.length peers)%nat ->
  mobjects (exec (stage2_turn boxes (active, peers)) s) = mobjects s
  /\ next_id (exec (stage2_turn boxes (active, peers)) s)
     = (3 + 3 * List.length peers + next_id s)%nat.
Proof.
  intros Hfresh Hshown Hlen. unfold exec, stage2_turn.
  destruct (never_raises_spotlight boxes active s) as [[] [s1 E1]].
  destruct (spotlight_display s boxes active) as [_ [M1 N1]].
  specialize (M1 (displayed_spotlit boxes active s Hshown)).
  unfold exec in M1, N1. rewrite E1 in M1, N1. cbn [snd] in M1, N1.
  rewrite (bind_ok _ _ _ _ _ E1).
  rewrite (bind_ok _ _ _ _ _ (eq_refl : deref active s1 = (Ok _, s1))).
  rewrite (bind_ok _ _ _ _ _ (mapM_shares _ peers s1)).
  set (shares := map _ peers).
  assert (LS : List.length shares = List.length peers) by apply length_map.
  destruct (new_group_run MArrow (map fst shares) (fun _ _ => eq_refl) s1)
    as [subsA [EA [FA LA]]].
  rewrite (bind_ok _ _ _ _ _ EA).
  destruct (new_group_run MTex (map snd shares) (fun _ _ => eq_refl)
                          (allocated (S (List.length (map fst shares))) s1))
    as [subsL [EL [FL _]]].
  rewrite (bind_ok _ _ _ _ _ EL).
  rewrite !length_map in * .
  set (gA := MVGroup _ subsA _) in * .
  set (gL := MVGroup _ subsL _) in * .
  destruct subsA as [| x0 [| x1 rest]]; cbn [List.length] in LA; try lia.
  rewrite (bind_ok _ _ _ _ _ (eq_refl : getitem (submobjects gA) 0 _ = (Ok x0, _))).
  rewrite (bind_ok _ _ _ _ _ (eq_refl : getitem (submobjects gA) 1 _ = (Ok x1, _))).
  rewrite !(bind_ok _ _ _ _ _ (play_run _ _ _)).
  set (s3 := log _ (render _ (log _ _))).
  destruct (new_group_run (fun i '(t, placed) => MText i t placed)
                          (map tick_at peers) tick_family s3)
    as [subsT [ET [FT _]]].
  rewrite (bind_ok _ _ _ _ _ ET).
  set (gT := MVGroup _ subsT _) in * .
  rewrite !(bind_ok _ _ _ _ _ (play_run _ _ _)).
  rewrite (bind_ok _ _ _ _ _ (wait_run _ _)).
  rewrite play_run. cbn [snd].
  assert (N3 : next_id s3 = (S (List.length peers) + (S (List.length peers) + next_id s1))%nat).
  { unfold s3. cbn [next_id log render commit_all fold_left commit add_mobjects allocated show_animated]. rewrite LS. reflexivity. }
  split.
  - cbn [mobjects log render commit_all fold_left commit add_mobjects
         remove_mobjects allocated show_animated].
    assert (M3 : mobjects s3
                 = add_ids (family gL)
                     (add_ids (family x1)
                        (add_ids (family x0) (mobjects s1)))) by reflexivity.
    fold (add_ids (family gT) (mobjects s3)).
    rewrite !remove_ids_twice.
    set (big := (family gA ++ family gL ++ family gT)%list).
    assert (HA : forall i, In i (family gA) -> In i big).
    { intros i Hi. unfold big. rewrite !in_app_iff. auto. }
    assert (HL : forall i, In i (family gL) -> In i big).
    { intros i Hi. unfold big. rewrite !in_app_iff. auto. }
    assert (HT : forall i, In i (family gT) -> In i big).
    { intros i Hi. unfold big. rewrite !in_app_iff. auto. }
    assert (H0 : forall i, In i (family x0) -> In i big).
    { intros i Hi. apply HA, (family_of_member gA x0); [left; reflexivity | exact Hi]. }
    assert (H1 : forall i, In i (family x1) -> In i big).
    { intros i Hi. apply HA, (family_of_member gA x1);
        [right; left; reflexivity | exact Hi]. }
    rewrite (remove_after_add big (family gT)) by exact HT.
    rewrite M3.
    rewrite (remove_after_add big (family gL)) by exact HL.
    rewrite (remove_after_add big (family x1)) by exact H1.
    rewrite (remove_after_add big (family x0)) by exact H0.
    rewrite M1. apply remove_ids_disjoint.
    intros i Hi Hbig. apply Hfresh in Hi.
    unfold big in Hbig. rewrite !in_app_iff in Hbig.
    rewrite FA, FL, FT in Hbig.
    destruct Hbig as [Hb | [Hb | Hb]]; apply in_group_ids in Hb.
    + rewrite N1 in Hb. clear - Hi Hb. lia.
    + cbn [allocated next_id] in Hb. rewrite N1 in Hb. clear - Hi Hb. lia.
    + rewrite N3, N1 in Hb. clear - Hi Hb. lia.
  - cbn [next_id log render commit_all fold_left commit add_mobjects
         remove_mobjects allocated show_animated].
    rewrite N3, N1, !length_map, ?LS.
    unfold ref. lia.
Qed.

Lemma tidy_stage2_turn (D : list nat) (boxes : list ref)
      (turn : ref * list ref) :
  (forall i, In i (fst turn :: boxes) -> In i D) ->
  (2 <= List.length (snd turn))%nat -> tidy D (stage2_turn boxes turn).
Proof.
  destruct turn as [active peers]. cbn [fst snd]. intros HD Hlen s Hs Hd.
  assert (Hshown : displayed (active :: boxes) s)
    by (intros i Hi; apply Hd, HD, Hi).
  destruct (stage2_turn_display boxes active peers s Hs Hshown Hlen) as [M N].
  split; [| split].
  - destruct (stage2_turn_two_peers boxes active peers Hlen s)
      as [a [s' [l [E _]]]].
    exists a. rewrite E. reflexivity.
  - exact M.
  - lia.
Qed.

Lemma tidy_stage2_loop (D : list nat) (boxes : list ref)
      (script : list (ref * list ref)) :
  (forall i, In i boxes -> In i D) ->
  spotlights D script ->
  Forall (fun turn => (2 <= List.length (snd turn))%nat) script ->
  tidy D (stage2_loop boxes script).
Proof.
  intros HD Hscript H. unfold stage2_loop.
  apply (tidy_forM_Forall D
           (fun turn => In (fst turn) D /\ (2 <= List.length (snd turn))%nat)).
  - intros turn [Ht Hl]. apply tidy_stage2_turn; [| exact Hl].
    intros i [<- | Hi]; [exact Ht | apply HD, Hi].
  - unfold spotlights in Hscript. rewrite Forall_forall in * .
    intros turn Hin. split; [apply Hscript | apply H]; exact Hin.
Qed.


Lemma new_id_run (s : Scene) : new_id s = (Ok (next_id s), allocated 1 s).
Proof. reflexivity. Qed.

Lemma deref_run (r : ref) (s : Scene) : deref r s = (Ok (heap s r), s).
Proof. reflexivity. Qed.

Lemma brief_run (txt : string) (s : Scene) :
  brief txt s = (Ok tt, exec (brief txt) s).
Proof. apply run_ok. reflexivity. Qed.

Lemma add_ids_disjoint (ids l : list nat) :
  (forall i, In i l -> ~ In i ids) -> add_ids ids l = (l ++ ids)%list.
Proof. intros H. unfold add_ids. rewrite remove_ids_disjoint by exact H. reflexivity. Qed.

Ltac run_step :=
  first [ rewrite (bind_ok _ _ _ _ _ (new_id_run _))
        | rewrite (bind_ok _ _ _ _ _ (play_run _ _ _))
        | rewrite (bind_ok _ _ _ _ _ (wait_run _ _))
        | rewrite (bind_ok _ _ _ _ _ (deref_run _ _)) ].

Ltac disjoint_ids Hfresh :=
  let i := fresh "i" in
  let Hi := fresh "Hi" in
  let Hf := fresh "Hf" in
  intros i Hi Hf; rewrite ?in_app_iff in Hi; cbn [map In] in Hi, Hf;
  repeat match goal with
         | H : _ \/ _ |- _ => destruct H
         | H : In _ (mobjects _) |- _ => apply Hfresh in H
         | H : False |- _ => destruct H
         end;
  lia.

Definition stage3_leaves : list nat :=
  [0; 14; 8; 9; 10; 15; 11; 12; 13; 4; 2; 3; 7; 5; 6]%nat.

Lemma stage_label_run (title : string) (s : Scene) :
  stage_label title s
  = (Ok (MText (next_id s) (mkText title 38 WHITE) (ToEdge UP STAGE_LABEL_PAD)),
     allocated 1 s).
Proof. reflexivity. Qed.













Lemma displayed_self (s : Scene) : displayed (mobjects s) s.
Proof. intros i Hi. exact Hi. Qed.

Lemma spotlights_displayed (script : list (ref * list ref)) (s : Scene) :
  displayed (map fst script) s -> spotlights (mobjects s) script.
Proof.
  intros H. apply Forall_forall. intros turn Hin.
  apply H, in_map, Hin.
Qed.

Lemma turns_displayed (p1 p2 p3 : ref) (s : Scene) :
  displayed [p1; p2; p3] s -> spotlights (mobjects s) (turns p1 p2 p3).
Proof.
  intros H. unfold spotlights, turns.
  repeat constructor; cbn [fst]; apply H; cbn [In]; auto.
Qed.

Lemma scene_after_setup_displayed : displayed nodes scene_after_setup.
Proof.
  intros i Hi. vm_compute in Hi. vm_compute.
  destruct Hi as [<- | [<- | [<- | []]]]; auto.
Qed.

(** X10.  Stage 1 retracts everything it shows.  From a scene whose
    displayed objects have all been handed out and in which the boxes of the
    list and the boxes the script spotlights are on display, the loop of
    stage 1 returns with the same objects on display as it found (each turn
    fades out its polynomial, its arrows and its labels, and the spotlight
    adds no box, all being there already); and so does the whole stage, title
    and explanation included, which raises nothing. *)
Theorem stage1_retracts (boxes : list ref) (script : list (ref * list ref))
        (p1 p2 p3 : ref) (s : Scene) :
  fresh s ->
  displayed boxes s ->
  displayed (map fst script) s ->
  displayed [p1; p2; p3] s ->
  (forall i : nat,
      In i (mobjects (exec (stage1_loop boxes script) s)) <-> In i (mobjects s))
  /\ fst (stage1 boxes p1 p2 p3 s) = Ok tt
  /\ (forall i : nat,
         In i (mobjects (exec (stage1 boxes p1 p2 p3) s)) <-> In i (mobjects s))
  /\ (next_id s <= next_id (exec (stage1 boxes p1 p2 p3) s))%nat.
Proof.
  intros Hs Hboxes Hscript Hp.
  pose proof (displayed_self s) as Hd.
  split.
  { destruct (tidy_stage1_loop (mobjects s) boxes script Hboxes
                (spotlights_displayed script s Hscript) s Hs Hd) as [_ [M _]].
    intros i. rewrite M. reflexivity. }
  assert (H : fst (stage1 boxes p1 p2 p3 s) = Ok tt
              /\ mobjects (exec (stage1 boxes p1 p2 p3) s) = mobjects s
              /\ (next_id s <= next_id (exec (stage1 boxes p1 p2 p3) s))%nat).
  { unfold stage1.
    apply (titled_display (mobjects s) _ (fun lbl => _)); [exact Hs | exact Hd |].
    intros g.
    apply closes_bind; [apply tidy_wait | intros _].
    apply closes_bind; [apply tidy_brief | intros _].
    apply closes_bind; [| intros _].
    { apply tidy_stage1_loop; [exact Hboxes | apply turns_displayed, Hp]. }
    apply closes_bind; [apply tidy_wait | intros _].
    apply closes_fade_out. }
  destruct H as [E [M N]].
  split; [exact E | split; [| exact N]].
  intros i. rewrite M. reflexivity.
Qed.

Lemma stage1_retracts_witness :
  In P1 (mobjects (exec (stage1 nodes P1 P2 P3) scene_after_setup))
  <-> In P1 (mobjects scene_after_setup).
Proof.
  refine (proj1 (proj2 (proj2
            (stage1_retracts nodes (turns P1 P2 P3) P1 P2 P3
                             scene_after_setup _ _ _ _))) P1).
  - exact scene_after_setup_fresh.
  - exact scene_after_setup_displayed.
  - intros i Hi. apply scene_after_setup_displayed. exact Hi.
  - exact scene_after_setup_displayed.
Defined.

(** X11.  Stage 2 retracts everything it shows, as long as every turn has at
    least two peers: from a scene whose displayed objects have all been
    handed out and in which the boxes of the list and the boxes the script
    spotlights are on display, the loop of stage 2 returns with the same
    objects on display as it found (the two grown arrows, the labels and the
    ticks are faded out with their groups), and so does the whole stage with
    the turns of [construct], which raises nothing. *)
Theorem stage2_retracts (boxes : list ref) (script : list (ref * list ref))
        (p1 p2 p3 : ref) (s : Scene) :
  fresh s ->
  displayed boxes s ->
  displayed (map fst script) s ->
  displayed [p1; p2; p3] s ->
  Forall (fun turn => (2 <= List.length (snd turn))%nat) script ->
  (forall i : nat,
      In i (mobjects (exec (stage2_loop boxes script) s)) <-> In i (mobjects s))
  /\ fst (stage2 boxes p1 p2 p3 s) = Ok tt
  /\ (forall i : nat,
         In i (mobjects (exec (stage2 boxes p1 p2 p3) s)) <-> In i (mobjects s))
  /\ (next_id s <= next_id (exec (stage2 boxes p1 p2 p3) s))%nat.
Proof.
  intros Hs Hboxes Hscript Hp Hlen.
  pose proof (displayed_self s) as Hd.
  split.
  { destruct (tidy_stage2_loop (mobjects s) boxes script Hboxes
                (spotlights_displayed script s Hscript) Hlen s Hs Hd)
      as [_ [M _]].
    intros i. rewrite M. reflexivity. }
  assert (H : fst (stage2 boxes p1 p2 p3 s) = Ok tt
              /\ mobjects (exec (stage2 boxes p1 p2 p3) s) = mobjects s
              /\ (next_id s <= next_id (exec (stage2 boxes p1 p2 p3) s))%nat).
  { unfold stage2.
    apply (titled_display (mobjects s) _ (fun lbl => _)); [exact Hs | exact Hd |].
    intros g.
    apply closes_bind; [apply tidy_wait | intros _].
    apply closes_bind; [apply tidy_brief | intros _].
    apply closes_bind; [| intros _].
    { apply tidy_stage2_loop;
        [exact Hboxes | apply turns_displayed, Hp
         | unfold turns; repeat constructor]. }
    apply closes_bind; [apply tidy_wait | intros _].
    apply closes_fade_out. }
  destruct H as [E [M N]].
  split; [exact E | split; [| exact N]].
  intros i. rewrite M. reflexivity.
Qed.

Lemma stage2_retracts_witness :
  In P1 (mobjects (exec (stage2 nodes P1 P2 P3) scene_after_setup))
  <-> In P1 (mobjects scene_after_setup).
Proof.
  refine (proj1 (proj2 (proj2
            (stage2_retracts nodes (turns P1 P2 P3) P1 P2 P3
                             scene_after_setup _ _ _ _ _))) P1).
  - exact scene_after_setup_fresh.
  - exact scene_after_setup_displayed.
  - intros i Hi. apply scene_after_setup_displayed. exact Hi.
  - exact scene_after_setup_displayed.
  - unfold turns. repeat constructor.
Defined.

(** Moving boxes that are on display leaves the display as it is. *)
Lemma moves_display (anims : list (ref * vec)) (s : Scene) :
  displayed (map fst anims) s ->
  mobjects (commit_all (map (fun '(r, p) => node_animate_move_to r p) anims) s)
  = mobjects s
  /\ next_id (commit_all (map (fun '(r, p) => node_animate_move_to r p) anims) s)
     = next_id s.
Proof.
  revert s. induction anims as [| [r p] anims IH]; intros s Hd.
  - split; reflexivity.
  - cbn [map]. rewrite commit_all_cons.
    set (s1 := commit (node_animate_move_to r p) s).
    assert (M1 : mobjects s1 = mobjects s).
    { unfold s1, node_animate_move_to.
      cbn [commit fold_left update_node show_animated mobjects map fst].
      apply add_missing_present. intros i [<- | []]. apply Hd. left.
      reflexivity. }
    assert (N1 : next_id s1 = next_id s) by reflexivity.
    destruct (IH s1) as [M N].
    { intros i Hi. rewrite M1. apply Hd. right. exact Hi. }
    rewrite M, N, M1, N1. split; reflexivity.
Qed.

(** X12.  Stage 3 retracts its two explanations only.  From a scene whose
    displayed objects have all been handed out and in which the three boxes
    are on display, it leaves on display what was there and, in addition: its
    title (which, unlike the titles of stages 1 and 2, is never faded out),
    the group of the three arrows with its arrows, the group of the three
    share labels with its labels, the public key group with its text and
    equation, and the private key group with its text and equation; the
    identities are given relative to the first one the stage hands out. *)
Theorem stage3_display (p1 p2 p3 : ref) (s : Scene) :
  fresh s ->
  displayed [p1; p2; p3] s ->
  forall i : nat,
    In i (mobjects (exec (stage3 p1 p2 p3) s))
    <-> In i (mobjects s)
        \/ In i (map (fun k => (k + next_id s)%nat) stage3_leaves).
Proof.
  intros Hfresh Hshown.
  assert (Goal : mobjects (exec (stage3 p1 p2 p3) s)
                 = (mobjects s
                    ++ map (fun k => (k + next_id s)%nat) stage3_leaves)%list);
    [| intros i; rewrite Goal; apply in_app_iff].
  unfold exec, stage3.
  rewrite (bind_ok _ _ _ _ _ (stage_label_run _ s)).
  repeat run_step.
  rewrite (bind_ok _ _ _ _ _ (brief_run _ _)).
  set (sX := log _ (log _ _)).
  assert (MX : mobjects sX = add_ids [next_id s] (mobjects s)) by reflexivity.
  assert (NX : next_id sX = S (next_id s)) by reflexivity.
  assert (FX : fresh sX).
  { intros i Hi. rewrite MX in Hi. rewrite NX. unfold add_ids in Hi.
    apply in_app_iff in Hi. destruct Hi as [Hi | [<- | []]]; [| lia].
    apply filter_In in Hi. destruct Hi as [Hi _]. apply Hfresh in Hi. lia. }
  match goal with
  | |- context [exec (brief ?t) sX] =>
      destruct (brief_display t sX FX) as [MB NB];
      set (sB := exec (brief t) sX) in *
  end.
  rewrite (bind_ok _ _ _ _ _ (play_run _ _ _)).
  match goal with
  | |- context [render (Play [node_animate_move_to p1 ?a;
                              node_animate_move_to p2 ?b;
                              node_animate_move_to p3 ?c] None) sB] =>
      destruct (moves_display [(p1, a); (p2, b); (p3, c)] sB) as [MM NM];
      [ intros i Hi; rewrite MB, MX; apply add_ids_keeps, Hshown, Hi |];
      change (commit_all _ sB)
        with (render (Play [node_animate_move_to p1 a;
                            node_animate_move_to p2 b;
                            node_animate_move_to p3 c] None) sB) in MM, NM;
      set (sM := render (Play [node_animate_move_to p1 a;
                               node_animate_move_to p2 b;
                               node_animate_move_to p3 c] None) sB) in *
  end.
  repeat run_step.
  set (sE := log (Wait 2) _).
  assert (NE : next_id sE = (16 + next_id s)%nat).
  { unfold sE.
    cbn [next_id log render commit_all fold_left commit add_mobjects
         allocated Nat.add].
    rewrite NM, NB, NX. reflexivity. }
  assert (ME : mobjects sE
               = add_ids (map (fun k => (k + next_id s)%nat) [7; 5; 6]%nat)
                   (add_ids (map (fun k => (k + next_id s)%nat) [4; 2; 3]%nat)
                      (add_ids (map (fun k => (k + next_id s)%nat)
                                    [15; 11; 12; 13]%nat)
                         (add_ids (map (fun k => (k + next_id s)%nat)
                                       [14; 8; 9; 10]%nat)
                            (add_ids [next_id s] (mobjects s)))))).
  { unfold sE.
    cbn [mobjects next_id log render commit_all fold_left commit add_mobjects
         allocated family flat_map app Nat.add].
    rewrite MM, NM, MB, MX, NB, NX. reflexivity. }
  assert (ME' : mobjects sE
                = (mobjects s
                   ++ map (fun k => (k + next_id s)%nat) stage3_leaves)%list).
  { rewrite ME.
    rewrite (add_ids_disjoint [next_id s]) by disjoint_ids Hfresh.
    rewrite (add_ids_disjoint (map _ [14; 8; 9; 10]%nat))
      by disjoint_ids Hfresh.
    rewrite (add_ids_disjoint (map _ [15; 11; 12; 13]%nat))
      by disjoint_ids Hfresh.
    rewrite (add_ids_disjoint (map _ [4; 2; 3]%nat)) by disjoint_ids Hfresh.
    rewrite (add_ids_disjoint (map _ [7; 5; 6]%nat)) by disjoint_ids Hfresh.
    rewrite <- !app_assoc. reflexivity. }
  assert (FE : fresh sE).
  { intros i Hi. rewrite ME' in Hi. rewrite NE.
    apply in_app_iff in Hi. destruct Hi as [Hi | Hi].
    - apply Hfresh in Hi. lia.
    - unfold stage3_leaves in Hi. cbn [map In] in Hi.
      repeat (destruct Hi as [<- | Hi]; [lia |]). destruct Hi. }
  match goal with
  | |- context [brief ?t sE] =>
      destruct (brief_display t sE FE) as [MF _]; unfold exec in MF
  end.
  rewrite MF. exact ME'.
Qed.

Lemma stage3_display_witness :
  In P1 (mobjects (exec (stage3 P1 P2 P3) scene_after_setup))
  <-> In P1 (mobjects scene_after_setup)
      \/ In P1 (map (fun k => (k + next_id scene_after_setup)%nat)
                    stage3_leaves).
Proof.
  apply (stage3_display P1 P2 P3 scene_after_setup).
  - exact scene_after_setup_fresh.
  - exact scene_after_setup_displayed.
Defined.

(** ** The layout of the boxes and the direction of the arrows *)

(** The ordered pairs (sender, receiver) of the turns, in the order in which
    the loops of stages 1 and 2 visit them. *)
Definition pairs : list (ref * ref) :=
  flat_map (fun '(a, others) => map (pair a) others) (turns P1 P2 P3).

(** Where the three boxes are once the group has been centred. *)
Definition layout : list vec :=
  [mkvec (-3) 1.25 0; mkvec 3 1.25 0; mkvec 0 (-1.25) 0].

Ltac rminmax :=
  unfold Rmin, Rmax; repeat (destruct (Rle_dec _ _)); try lra.

Ltac symbolic :=
  lazy -[Rplus Rminus Rmult Rdiv Rinv Ropp IZR Rmin Rmax sqrt Req_dec_T].

Lemma layout_after_setup :
  map (fun p => get_center (heap scene_after_setup p)) nodes = layout.
Proof.
  symbolic.
  repeat (f_equal; try (apply vec_eq; cbn [vx vy vz]; rminmax)).
Qed.

Lemma reach_after_setup (p : ref) :
  In p nodes -> reach (heap scene_after_setup p) = 1.1.
Proof.
  intros [<- | [<- | [<- | []]]]; symbolic; rminmax.
Qed.

Lemma dot_scaled (v : vec) (s : R) : dot (v *. s) v = dot v v * s.
Proof. unfold dot; simpl; ring. Qed.

Lemma far_apart_forward (a b : NodeBox) (c : color) (w : nat) :
  0 <= reach a + reach b ->
  (reach a + reach b) * (reach a + reach b)
  < dot (get_center b - get_center a) (get_center b - get_center a) ->
  0 < dot (arrow_direction (arrow_between a b c w))
          (get_center b - get_center a).
Proof.
  intros Hr Hfar.
  assert (Hne : get_center a <> get_center b).
  { intros E. rewrite E in Hfar.
    replace (dot (get_center b - get_center b) (get_center b - get_center b))
      with 0 in Hfar by (unfold dot; simpl; ring).
    nra. }
  rewrite (arrow_direction_scaled a b c w Hne), dot_scaled.
  set (v := (get_center b - get_center a)%vec) in * .
  pose proof (norm_sqr v) as Hn.
  assert (Hd : 0 < norm v).
  { apply norm_pos_of_ne. intros E; apply Hne; auto. }
  rewrite <- Hn.
  replace (norm v * norm v * ((norm v - reach a - reach b) / norm v))
    with (norm v * (norm v - (reach a + reach b))) by (field; lra).
  apply Rmult_lt_0_compat; [exact Hd |].
  nra.
Qed.

(** X18.  Once the group of boxes has been centred, P1, P2 and P3 sit at
    (-3, 1.25, 0), (3, 1.25, 0) and (0, -1.25, 0).  The arrows created in
    stage 1 are the six broadcast arrows between these boxes, sender by
    sender, and the arrows created in stage 2 the six share arrows between
    the same pairs in the same order: the boxes have not moved in between.
    Every one of these arrows points from its sender towards its receiver,
    because any two boxes are further apart than the sum of their reaches. *)
Theorem arrows_point_forward :
  map (fun p => get_center (heap scene_after_setup p)) nodes = layout
  /\ arrows_in (shown stage1_timeline)
     = map (fun '(a, b) => arrow_between (heap scene_after_setup a)
                                         (heap scene_after_setup b)
                                         BROADCAST_COLOR 4) pairs
  /\ arrows_in (shown stage2_timeline)
     = map (fun '(a, b) => arrow_between (heap scene_after_setup a)
                                         (heap scene_after_setup b)
                                         SHARE_COLOR 6) pairs
  /\ Forall (fun '(a, b) =>
               forall (c : color) (w : nat),
                 0 < dot (arrow_direction
                            (arrow_between (heap scene_after_setup a)
                                           (heap scene_after_setup b) c w))
                         (get_center (heap scene_after_setup b)
                          - get_center (heap scene_after_setup a)))
            pairs.
Proof.
  split; [exact layout_after_setup |].
  split; [symbolic; reflexivity |].
  split; [symbolic; reflexivity |].
  pose proof layout_after_setup as L.
  injection L as L1 L2 L3.
  assert (R1 := reach_after_setup P1 (or_introl eq_refl)).
  assert (R2 := reach_after_setup P2 (or_intror (or_introl eq_refl))).
  assert (R3 := reach_after_setup P3
                  (or_intror (or_intror (or_introl eq_refl)))).
  unfold pairs, turns; cbn [flat_map map app].
  repeat (apply Forall_cons; [intros c w; apply far_apart_forward;
    rewrite ?R1, ?R2, ?R3, ?L1, ?L2, ?L3; [lra | unfold dot; simpl; lra] |]).
  apply Forall_nil.
Qed.

(** ** Where the broadcast arrows of the run are anchored *)

Lemma rect_after_setup (p : ref) :
  In p nodes ->
  width (rect (heap scene_after_setup p)) = 2
  /\ height (rect (heap scene_after_setup p)) = 1.
Proof.
  intros [<- | [<- | [<- | []]]]; split; symbolic; lra.
Qed.

(** C6 as stated fails on the first broadcast of the run.  For P1 at
    (-3, 1.25, 0) and P2 at (3, 1.25, 0), boxes 2 wide and 1 high, the arrow
    that [broadcast_with_labels] builds from P1 to P2 starts at
    (-1.9, 1.25, 0) and ends at (1.9, 1.25, 0): 1.1 from either centre, 0.1
    beyond the sides x = -2 and x = 2 of the rectangles, so neither end lies
    in the rectangle of its box, let alone on its boundary. *)
Lemma broadcast_start_outside_rectangle :
  map arrow_start
      (firstn 1 (fst (broadcast_with_labels
                        (heap scene_after_setup P1)
                        [heap scene_after_setup P2; heap scene_after_setup P3])))
  = [mkvec (-1.9) 1.25 0]
  /\ map arrow_end
         (firstn 1 (fst (broadcast_with_labels
                           (heap scene_after_setup P1)
                           [heap scene_after_setup P2;
                            heap scene_after_setup P3])))
     = [mkvec 1.9 1.25 0]
  /\ ~ in_rect (heap scene_after_setup P1) (mkvec (-1.9) 1.25 0)
  /\ ~ in_rect (heap scene_after_setup P2) (mkvec 1.9 1.25 0).
Proof.
  pose proof (f_equal (fun l => nth 0 l ORIGIN) layout_after_setup) as L1.
  pose proof (f_equal (fun l => nth 1 l ORIGIN) layout_after_setup) as L2.
  unfold nodes, layout in L1, L2. cbn [nth map] in L1, L2.
  assert (R1 := reach_after_setup P1 (or_introl eq_refl)).
  assert (R2 := reach_after_setup P2 (or_intror (or_introl eq_refl))).
  destruct (rect_after_setup P1 (or_introl eq_refl)) as [W1 _].
  destruct (rect_after_setup P2 (or_intror (or_introl eq_refl))) as [W2 _].
  unfold reach in R1, R2.
  assert (N12 : norm (mkvec 3 1.25 0 - mkvec (-3) 1.25 0) = 6).
  { replace (mkvec 3 1.25 0 - mkvec (-3) 1.25 0)%vec with (mkvec 6 0 0)
      by (apply vec_eq; simpl; lra).
    apply norm_along_x. lra. }
  assert (N21 : norm (mkvec (-3) 1.25 0 - mkvec 3 1.25 0) = 6).
  { rewrite norm_swap. exact N12. }
  assert (Hne : mkvec 3 1.25 0 <> mkvec (-3) 1.25 0).
  { intros E. apply (f_equal vx) in E. simpl in E. lra. }
  rewrite broadcast_with_labels_eq.
  cbn [fst map firstn]. unfold broadcast_arrow, arrow_between.
  cbn [arrow_start arrow_end].
  split; [| split; [| split]].
  - rewrite edge_point_away by (rewrite L1, L2; exact Hne).
    rewrite R1, L1, L2, N12. f_equal. apply vec_eq; simpl; lra.
  - rewrite edge_point_away
      by (rewrite L1, L2; intros E; apply Hne; symmetry; exact E).
    rewrite R2, L1, L2, N21. f_equal. apply vec_eq; simpl; lra.
  - unfold in_rect. rewrite L1, W1. cbn [vx vy]. intros [Hx _].
    rewrite Rabs_right in Hx by lra. lra.
  - unfold in_rect. rewrite L2, W2. cbn [vx vy]. intros [Hx _].
    rewrite Rabs_left in Hx by lra. lra.
Qed.

(** * The coverage badge script

    A shallow embedding of the counting loop of
    [src/workflows/update_coverage.py] (lines 9-27).  The report is the
    parsed JSON of tarpaulin: a list of file entries, each with a [path] (a
    list of path components, empty when the key is missing) and [traces];
    a trace may have a [stats] object, which may have a [Line] count.  The
    percentage (line 31) is computed on floats and is not modelled. *)

Module Coverage.

Local Open Scope string_scope.
Local Open Scope nat_scope.

(** Python's [str.startswith], [str.endswith] and [in] on strings. *)
Definition startswith (s prefix : string) : bool := String.prefix prefix s.

Fixpoint endswith (s suffix : string) : bool :=
  String.eqb s suffix
  || match s with
     | EmptyString => false
     | String _ s' => endswith s' suffix
     end.

Fixpoint contains (needle s : string) : bool :=
  String.prefix needle s
  || match s with
     | EmptyString => false
     | String _ s' => contains needle s'
     end.

(** [posixpath.join]: a component that starts with a slash restarts
    the path; otherwise components are appended with one slash between. *)
Definition join_step (path b : string) : string :=
  if startswith b "/" then b
  else if String.eqb path "" || endswith path "/" then path ++ b
       else path ++ "/" ++ b.

Inductive exn : Type := TypeError.

(** [os.path.join] applied to the unpacked list: with no argument at all
    the call itself fails. *)
Definition os_path_join (parts : list string) : exn + string :=
  match parts with
  | [] => inl TypeError
  | a :: p => inr (fold_left join_step p a)
  end.

Record Trace : Type := mkTrace {
  stats : option (option Z)   (* the "Line" entry of "stats", if any *)
}.

Record FileData : Type := mkFileData {
  path : list string;
  traces : list Trace
}.

Record Counts : Type := mkCounts {
  total_lines : nat;
  covered_lines : nat
}.

(** Lines 15-21. *)
Definition skipped (file_path : string) : bool :=
  contains "/.cargo/" file_path
  || contains "target/debug/build" file_path
  || contains "/tests/" file_path
  || endswith file_path "/build.rs".

(** Lines 24-27. *)
Definition count_trace (c : Counts) (trace : Trace) : Counts :=
  match stats trace with
  | Some (Some line) =>
      mkCounts (total_lines c + 1)
               (if (0 <? line)%Z then covered_lines c + 1 else covered_lines c)
  | _ => c
  end.

(** Body of the loop over the files, lines 13-27. *)
Definition count_file (c : Counts) (file_data : FileData) : exn + Counts :=
  match os_path_join (path file_data) with
  | inl e => inl e
  | inr file_path =>
      if skipped file_path then inr c
      else inr (fold_left count_trace (traces file_data) c)
  end.

Fixpoint count_files (c : Counts) (files : list FileData) : exn + Counts :=
  match files with
  | [] => inr c
  | file_data :: files' =>
      match count_file c file_data with
      | inl e => inl e
      | inr c' => count_files c' files'
      end
  end.

(** Lines 9-10 and the loop. *)
Definition count (files : list FileData) : exn + Counts :=
  count_files (mkCounts 0 0) files.

Lemma count_trace_le (c : Counts) (trace : Trace) :
  covered_lines c <= total_lines c ->
  covered_lines (count_trace c trace) <= total_lines (count_trace c trace).
Proof.
  intros H. unfold count_trace.
  destruct (stats trace) as [[line |] |]; simpl; try assumption.
  destruct (0 <? line)%Z; lia.
Qed.

Lemma count_traces_le (l : list Trace) :
  forall c : Counts,
    covered_lines c <= total_lines c ->
    covered_lines (fold_left count_trace l c)
    <= total_lines (fold_left count_trace l c).
Proof.
  induction l as [| t l IH]; intros c H; simpl; [assumption |].
  apply IH, count_trace_le, H.
Qed.

Lemma count_files_le (files : list FileData) :
  forall c c' : Counts,
    covered_lines c <= total_lines c ->
    count_files c files = inr c' ->
    covered_lines c' <= total_lines c'.
Proof.
  induction files as [| f files IH]; intros c c' H E; simpl in E.
  - injection E as <-. assumption.
  - destruct (count_file c f) as [e | c1] eqn:Ef; [discriminate |].
    apply (IH c1 c'); [| assumption].
    unfold count_file in Ef.
    destruct (os_path_join (path f)) as [e | p]; [discriminate |].
    destruct (skipped p); injection Ef as <-; [assumption |].
    apply count_traces_le, H.
Qed.

(** X13.  Whenever the counting loop of the coverage script finishes, the
    number of covered lines is at most the number of lines counted. *)
Theorem covered_at_most_total (files : list FileData) (c : Counts) :
  count files = inr c -> covered_lines c <= total_lines c.
Proof.
  intros E. apply (count_files_le files (mkCounts 0 0) c); [| exact E].
  simpl. lia.
Qed.

Definition sample_report : list FileData :=
  [ mkFileData ["/"; "repo"; "src"; "lib.rs"]
               [mkTrace (Some (Some 3%Z)); mkTrace (Some (Some 0%Z));
                mkTrace None; mkTrace (Some None)];
    mkFileData ["/"; "repo"; "tests"; "it.rs"] [mkTrace (Some (Some 5%Z))];
    mkFileData ["/"; "repo"; "build.rs"] [mkTrace (Some (Some 1%Z))] ].

Lemma covered_at_most_total_witness :
  count sample_report = inr (mkCounts 2 1) /\ 1 <= 2.
Proof.
  split; [reflexivity |].
  exact (covered_at_most_total sample_report (mkCounts 2 1) eq_refl).
Defined.

Lemma count_files_app (l1 l2 : list FileData) :
  forall c : Counts,
    count_files c (l1 ++ l2)
    = match count_files c l1 with
      | inl e => inl e
      | inr c' => count_files c' l2
      end.
Proof.
  induction l1 as [| f l1 IH]; intros c; simpl; [reflexivity |].
  destruct (count_file c f) as [e | c1]; [reflexivity | apply IH].
Qed.

(** X14.  A file whose joined path contains "/.cargo/", "target/debug/build"
    or "/tests/", or ends with "/build.rs", does not count: taking its entry
    out of the report changes neither the result nor the failure of the
    counting loop. *)
Theorem skipped_file_does_not_count (before after : list FileData)
        (file_data : FileData) (file_path : string) :
  os_path_join (path file_data) = inr file_path ->
  skipped file_path = true ->
  count (before ++ file_data :: after) = count (before ++ after).
Proof.
  intros Hjoin Hskip. unfold count. rewrite !count_files_app.
  destruct (count_files (mkCounts 0 0) before) as [e | c]; [reflexivity |].
  simpl. unfold count_file. rewrite Hjoin, Hskip. reflexivity.
Qed.

Lemma skipped_file_does_not_count_witness :
  count ([mkFileData ["src"; "a.rs"] [mkTrace (Some (Some 1%Z))]]
         ++ mkFileData ["/"; "repo"; "tests"; "it.rs"]
                       [mkTrace (Some (Some 5%Z))]
         :: [mkFileData ["src"; "b.rs"] [mkTrace (Some (Some 0%Z))]])
  = count ([mkFileData ["src"; "a.rs"] [mkTrace (Some (Some 1%Z))]]
           ++ [mkFileData ["src"; "b.rs"] [mkTrace (Some (Some 0%Z))]]).
Proof.
  apply (skipped_file_does_not_count _ _ _ "/repo/tests/it.rs");
    reflexivity.
Defined.

Lemma count_file_fails (c : Counts) (f : FileData) :
  (exists e, count_file c f = inl e) <-> path f = [].
Proof.
  unfold count_file. destruct (path f) as [| a p]; simpl.
  - split; [reflexivity | intros _; exists TypeError; reflexivity].
  - split; [| discriminate].
    intros [e E]. destruct (skipped (fold_left join_step p a)); discriminate.
Qed.

(** X15.  The counting loop fails exactly when some file entry of the report
    has an empty path (the "path" key missing or an empty list), on which
    [os.path.join] is called with no argument; the failure is a
    [TypeError]. *)
Theorem count_fails_iff_empty_path (files : list FileData) :
  ((exists e, count files = inl e) <-> Exists (fun f => path f = []) files)
  /\ (forall e, count files = inl e -> e = TypeError).
Proof.
  split; [| intros []; reflexivity].
  unfold count. generalize (mkCounts 0 0).
  induction files as [| f files IH]; intros c; simpl.
  - split; [intros [e E]; discriminate | intros H; inversion H].
  - destruct (count_file c f) as [e | c1] eqn:Ef.
    + split; [| intros _; exists e; reflexivity].
      intros _. left. apply (count_file_fails c f). exists e. exact Ef.
    + rewrite IH. split; [intros H; right; exact H |].
      intros H. inversion H as [f' l Hf | f' l Hl]; subst; [| exact Hl].
      apply (count_file_fails c f) in Hf. destruct Hf as [e E]. congruence.
Qed.

Lemma count_fails_iff_empty_path_witness :
  exists e, count [mkFileData ["src"; "a.rs"] [mkTrace (Some (Some 1%Z))];
                   mkFileData [] [mkTrace (Some (Some 1%Z))]] = inl e.
Proof.
  apply (proj1 (count_fails_iff_empty_path _)).
  right. left. reflexivity.
Defined.

Definition has_line (trace : Trace) : bool :=
  match stats trace with
  | Some (Some _) => true
  | _ => false
  end.

Definition is_covered (trace : Trace) : bool :=
  match stats trace with
  | Some (Some line) => (0 <? line)%Z
  | _ => false
  end.

Definition kept (file_data : FileData) : bool :=
  match os_path_join (path file_data) with
  | inr file_path => negb (skipped file_path)
  | inl _ => false
  end.

Lemma count_traces_spec (l : list Trace) :
  forall c : Counts,
    fold_left count_trace l c
    = mkCounts (total_lines c + List.length (filter has_line l))
               (covered_lines c + List.length (filter is_covered l)).
Proof.
  induction l as [| t l IH]; intros c; simpl.
  - rewrite !Nat.add_0_r. destruct c; reflexivity.
  - rewrite IH. destruct t as [[[line |] |]];
      cbn [count_trace stats has_line is_covered filter total_lines
           covered_lines]; try reflexivity.
    destruct (0 <? line)%Z; cbn [List.length]; apply f_equal2; lia.
Qed.

Lemma count_files_spec (files : list FileData) :
  Forall (fun f => path f <> []) files ->
  forall c : Counts,
    count_files c files
    = inr (mkCounts
             (total_lines c
              + List.length (filter has_line
                               (flat_map traces (filter kept files))))
             (covered_lines c
              + List.length (filter is_covered
                               (flat_map traces (filter kept files))))).
Proof.
  intros H. induction H as [| f files Hf Hfiles IH]; intros c; simpl.
  - rewrite !Nat.add_0_r. destruct c; reflexivity.
  - unfold count_file, kept.
    destruct (path f) as [| a p]; [contradiction |]. simpl.
    destruct (skipped (fold_left join_step p a)); simpl.
    + apply IH.
    + rewrite IH, count_traces_spec. simpl.
      rewrite !filter_app, !length_app. fold kept.
      apply f_equal. apply f_equal2; lia.
Qed.

(** X16.  What the counting loop counts.  For a report whose file entries all
    have a path, the loop returns, as total, the number of traces that have a
    "Line" entry in their "stats" among the files that are not skipped, and,
    as covered, the number of those whose "Line" is positive; traces
    without "stats" or without "Line" count for nothing. *)
Theorem count_spec (files : list FileData) :
  Forall (fun f => path f <> []) files ->
  count files
  = inr (mkCounts
           (List.length (filter has_line
                           (flat_map traces (filter kept files))))
           (List.length (filter is_covered
                           (flat_map traces (filter kept files))))).
Proof.
  intros H. unfold count. rewrite (count_files_spec files H). reflexivity.
Qed.

Lemma count_spec_witness :
  count sample_report
  = inr (mkCounts
           (List.length (filter has_line
                           (flat_map traces (filter kept sample_report))))
           (List.length (filter is_covered
                           (flat_map traces (filter kept sample_report))))).
Proof.
  apply (count_spec sample_report).
  unfold sample_report. repeat constructor; discriminate.
Defined.

End Coverage.
